(** * User sub-commands of the FAB auth manager

    A shallow embedding of
    [providers/fab/src/airflow/providers/fab/auth_manager/cli_commands/user_command.py]
    and the properties of its commands: the import of a batch of users
    behind the [UserSchema] gate, the single-user commands (create, delete,
    reset password, add and remove a role) and the lookup they share.

    The commands run in a monad that threads the state of the world (the
    user objects of the security manager, its roles, the calls made on it,
    the console) and stops at the first exception raised. *)

From stdpp Require Import gmap strings list fin_maps.
From Stdlib Require Import ZArith Floats.

Set Warnings "-register-all".
Set Default Proof Using "Type".

Open Scope Z_scope.
Open Scope string_scope.
Open Scope list_scope.

(** ** Data *)

(** What [json.loads] returns: [None], [bool], [int], [float], [str],
    [list] and [dict] (keys are strings, each key once). *)
Inductive json : Type :=
| JNull
| JBool (b : bool)
| JInt (z : Z)
| JFloat (f : PrimFloat.float)
| JStr (s : string)
| JList (l : list json)
| JDict (d : gmap string json).

(** A role of the security manager. The commands compare roles ([in], [!=])
    and read their [name]; the permissions behind a role are never looked at. *)
Record Role : Type := mkRole { name : string }.

#[global] Instance Role_eq_dec : EqDecision Role.
Proof. solve_decision. Defined.

(** A user object of the security manager, with the attributes the commands
    read or assign. *)
Record User : Type := mkUser {
  id : Z;
  username : string;
  email : string;
  first_name : string;
  last_name : string;
  roles : list Role;
  password : string;
}.

Definition set_roles (rs : list Role) (u : User) : User :=
  mkUser (id u) (username u) (email u) (first_name u) (last_name u) rs (password u).

Definition set_first_name (s : string) (u : User) : User :=
  mkUser (id u) (username u) (email u) s (last_name u) (roles u) (password u).

Definition set_last_name (s : string) (u : User) : User :=
  mkUser (id u) (username u) (email u) (first_name u) s (roles u) (password u).

Definition set_password (s : string) (u : User) : User :=
  mkUser (id u) (username u) (email u) (first_name u) (last_name u) (roles u) s.

(** The command-line arguments the commands read. An option that was left
    out ([None]) and an empty string are both falsy in every test the
    commands make ([not args.username], [elif args.password], [if username]
    in the store), so both are written as the empty string here. *)
Record Namespace : Type := mkArgs {
  arg_username : string;
  arg_email : string;
  arg_firstname : string;
  arg_lastname : string;
  arg_role : string;
  arg_use_random_password : bool;
  arg_password : string;
}.

(** Python's truth value of a string. *)
Definition truthy (s : string) : bool := negb (String.eqb s "").

(** ** Errors of schema validation *)

(** The value stored under a field in marshmallow's error dictionary: a list
    of messages, or for a list field the messages of its elements by index. *)
Inductive field_error : Type :=
| Messages (msgs : list string)
| Indexed (errs : list (nat * list string)).

(** The failures of one item, by field, in the order they are stored. *)
Definition failure : Type := list (string * field_error).

(** [e.normalized_messages()] of a [many=True] load: the failures by row. *)
Definition normalized_messages : Type := list (nat * failure).

(** A line of the validation message: [f"[Item {row_num}]"] or
    [f"\t{key}: {value}"]. *)
Inductive msg_line : Type :=
| ItemLine (row_num : nat)
| FieldLine (key : string) (value : field_error).

(** ** Exceptions and console output *)

(** The argument of each [raise SystemExit(...)] of the module. The text of
    the message is determined by the constructor and its fields. *)
Inductive exit_message : Type :=
| NotAValidRole (role : string) (valid_roles : list Role)
| FailedToCreateUser
| MissingArgs
| ConflictingArgs
| UserDoesNotExist (key : string)
| FailedToResetPassword
| PasswordsDidNotMatch
| FailedToDeleteUser
| NotAMember (user_name role : string)
| AlreadyAMember (user_name role : string)
| DidNotPassValidation (msg : list msg_line)
| UsernameChangeNotAllowed (user_email : string).

Inductive exn : Type :=
| SystemExit (m : exit_message)
| EOFError
| KeyError (key : string)
| TypeError
| DetachedInstanceError.

(** The lines the commands [print]. *)
Inductive line : Type :=
| AlreadyExist (user_name : string)
| UserCreated (user_name role : string)
| PasswordReset (user_name : string)
| UserDeleted (user_name : string)
| RemovedFromRole (user_name role : string)
| AddedToRole (user_name role : string)
| FoundExistingUser (user_email : string)
| CreatingNewUser (user_email : string).

(** ** The world *)

(** The calls a command makes on [appbuilder.sm], and the entry and exit of
    [with get_application_builder()]. [UpdateUser] and [DelRegisterUser]
    record the user object as it is when the call is made. *)
Inductive call : Type :=
| Enter
| Exit
| FindRole (role : string)
| GetAllRoles
| FindUser (user_name user_email : string)
| GetAllUsers
| AddUser (user_name first last user_email : string) (rs : list Role) (pw : string)
| UpdateUser (u : User)
| DelRegisterUser (u : User)
| ResetPassword (userid : Z) (pw : string).

(** A call that asks the store to change something. *)
Definition mutating (c : call) : bool :=
  match c with
  | AddUser _ _ _ _ _ _ | UpdateUser _ | DelRegisterUser _ | ResetPassword _ _ => true
  | _ => false
  end.

Record World : Type := mkWorld {
  users : list User;       (* the user objects of the store, in its order *)
  all_roles : list Role;   (* the roles of the store *)
  calls : list call;       (* the calls made so far, oldest first *)
  stdout : list line;      (* the lines printed so far, oldest first *)
  tty : list string;       (* the answers [getpass] will read *)
  random_choices : string; (* what [random.choices(string.printable, k=16)] yields *)
}.

Definition with_users (us : list User) (w : World) : World :=
  mkWorld us (all_roles w) (calls w) (stdout w) (tty w) (random_choices w).

Definition with_calls (cs : list call) (w : World) : World :=
  mkWorld (users w) (all_roles w) cs (stdout w) (tty w) (random_choices w).

Definition with_stdout (ls : list line) (w : World) : World :=
  mkWorld (users w) (all_roles w) (calls w) ls (tty w) (random_choices w).

Definition with_tty (t : list string) (w : World) : World :=
  mkWorld (users w) (all_roles w) (calls w) (stdout w) t (random_choices w).

(** ** The monad of commands *)

Inductive outcome (A : Type) : Type :=
| Return (a : A)
| Raise (e : exn).
Arguments Return {A} a.
Arguments Raise {A} e.

Definition M (A : Type) : Type := World -> outcome A * World.

Definition ret {A} (a : A) : M A := fun w => (Return a, w).

Definition raise {A} (e : exn) : M A := fun w => (Raise e, w).

Definition bind {A B} (m : M A) (k : A -> M B) : M B := fun w =>
  match m w with
  | (Return a, w') => k a w'
  | (Raise e, w') => (Raise e, w')
  end.

Declare Scope cmd_scope.
Delimit Scope cmd_scope with cmd.
Notation "x <- m ;; k" := (bind m (fun x => k))
  (at level 100, m at next level, right associativity) : cmd_scope.
Notation "m ;; k" := (bind m (fun _ => k))
  (at level 100, right associativity) : cmd_scope.
Open Scope cmd_scope.

Definition print (l : line) : M unit := fun w =>
  (Return tt, with_stdout (stdout w ++ [l]) w).

Definition called (c : call) : M unit := fun w =>
  (Return tt, with_calls (calls w ++ [c]) w).

(** [with get_application_builder() as appbuilder: body]: the exit runs on
    every way out of the body. *)
Definition with_appbuilder {A} (body : M A) : M A := fun w =>
  let '(r, w') := (called Enter ;; body) w in
  (r, with_calls (calls w' ++ [Exit]) w').

(** [getpass.getpass(prompt)]. *)
Definition getpass : M string := fun w =>
  match tty w with
  | [] => (Raise EOFError, w)
  | answer :: rest => (Return answer, with_tty rest w)
  end.

(** Reading an attribute of, and assigning to, the user object at a position
    of the store. The object is shared with the store: an assignment is seen
    by every later reader. *)
Definition getattr {A} (user : nat) (attr : User -> A) : M A := fun w =>
  match users w !! user with
  | Some u => (Return (attr u), w)
  | None => (Raise DetachedInstanceError, w)
  end.

Definition setattr (user : nat) (assign : User -> User) : M unit := fun w =>
  match users w !! user with
  | Some u => (Return tt, with_users (<[user := assign u]> (users w)) w)
  | None => (Raise DetachedInstanceError, w)
  end.

Section Commands.

(** marshmallow's [validate.Email]: whether a string is a well-formed
    address. *)
Variable valid_email : string -> bool.

(** Python's [int(s)] on a string: whether [s] is read as an integer. *)
Variable int_literal : string -> bool.

(** Whether the store turns down a deletion or a password reset when asked
    in the given state of its users. The commands only see the result. *)
Variable store_refuses : call -> list User -> bool.

(** ** The security manager [appbuilder.sm] *)

(** Modelled from the spec: [find_role] of the security manager, which is
    not part of the module; [findRole(name)] looks up the role with that
    name, roles being identified by their name. *)
Definition role_named (role : string) (rs : list Role) : option Role :=
  snd <$> list_find (fun r => name r = role) rs.

Definition find_role (role : string) : M (option Role) := fun w =>
  (Return (role_named role (all_roles w)), with_calls (calls w ++ [FindRole role]) w).

(** Modelled from the spec: [get_all_roles] of the security manager, which
    is not part of the module; [listRoles()]. *)
Definition get_all_roles : M (list Role) := fun w =>
  (Return (all_roles w), with_calls (calls w ++ [GetAllRoles]) w).

(** The position of the first user whose attribute equals a key. *)
Definition lookup_user (attr : User -> string) (key : string) (us : list User) : option nat :=
  fst <$> list_find (fun u => attr u = key) us.

(** Modelled from the spec: [find_user] of the security manager, which is
    not part of the module; [findUser(username|email)] looks the user up by
    the username when one is given and by the email otherwise. The result
    is the user object itself, here its position in the store. *)
Definition user_found (user_name user_email : string) (us : list User) : option nat :=
  if truthy user_name then lookup_user username user_name us
  else if truthy user_email then lookup_user email user_email us
  else None.

Definition find_user (user_name user_email : string) : M (option nat) := fun w =>
  (Return (user_found user_name user_email (users w)),
   with_calls (calls w ++ [FindUser user_name user_email]) w).

(** Modelled from the spec: [get_all_users] of the security manager, which
    is not part of the module; [listUsers()] enumerates the users in the
    order of the store. *)
Definition get_all_users : M (list User) := fun w =>
  (Return (users w), with_calls (calls w ++ [GetAllUsers]) w).

(** The id the store gives to a new user. *)
Definition fresh_id (us : list User) : Z := 1 + foldr Z.max 0 (id <$> us).

(** Modelled from the spec: [add_user] of the security manager, which is not
    part of the module; [addUser(fields)] adds a user with a store-assigned
    id. Usernames and emails are each unique in the store (section 3 of the
    spec), so a request that names a username or an email already in use is
    turned down and changes nothing. *)
Definition add_user (user_name first last user_email : string) (role : list Role)
    (pw : string) : M (option nat) := fun w =>
  let w := with_calls (calls w ++ [AddUser user_name first last user_email role pw]) w in
  match lookup_user username user_name (users w), lookup_user email user_email (users w) with
  | None, None =>
      (Return (Some (length (users w))),
       with_users (users w ++ [mkUser (fresh_id (users w)) user_name user_email first last role pw]) w)
  | _, _ => (Return None, w)
  end.

(** Modelled from the spec: [update_user] of the security manager, which is
    not part of the module; [updateUser(record)] persists the user object
    as it is. *)
Definition update_user (user : nat) : M unit :=
  u <- getattr user (fun u => u) ;;
  called (UpdateUser u).

(** Modelled from the spec: [del_register_user] of the security manager,
    which is not part of the module; [deleteUser(record)] removes the user
    and answers [True], or fails, answers [False] and leaves the store as
    it found it. *)
Definition del_register_user (user : nat) : M bool :=
  u <- getattr user (fun u => u) ;;
  called (DelRegisterUser u) ;;
  fun w =>
    if store_refuses (DelRegisterUser u) (users w) then (Return false, w)
    else (Return true, with_users (delete user (users w)) w).

(** Modelled from the spec: [reset_password] of the security manager, which
    is not part of the module; [resetPassword(id, secret)] changes the
    credential of the user with that id and nothing else. *)
Definition reset_password (userid : Z) (pw : string) : M bool :=
  called (ResetPassword userid pw) ;;
  fun w =>
    match list_find (fun u => id u = userid) (users w) with
    | Some (i, u) =>
        if store_refuses (ResetPassword userid pw) (users w) then (Return false, w)
        else (Return true, with_users (<[i := set_password pw u]> (users w)) w)
    | None => (Return false, w)
    end.

(** ** [UserSchema] *)

(** [Field.deserialize] of marshmallow: a value that is missing is an error
    for a required field and skipped for another; [None] is an error, as no
    field of the schema allows it; any other value goes to the check of the
    field's type. [None] as the result means no error. *)
Definition deserialize (required : bool) (check : json -> option field_error)
    (raw_value : option json) : option field_error :=
  match raw_value with
  | None => if required then Some (Messages ["Missing data for required field."]) else None
  | Some JNull => Some (Messages ["Field may not be null."])
  | Some value => check value
  end.

(** [fields.Int()]: not strict, so whatever [int(value)] converts, a
    boolean apart. *)
Definition fields_Int (value : json) : option field_error :=
  match value with
  | JInt _ => None
  | JFloat f =>
      if PrimFloat.is_nan f then Some (Messages ["Not a valid integer."])
      else if PrimFloat.is_infinity f then Some (Messages ["Number too large."])
      else None
  | JStr s => if int_literal s then None else Some (Messages ["Not a valid integer."])
  | _ => Some (Messages ["Not a valid integer."])
  end.

(** [fields.Str()]. *)
Definition fields_Str (value : json) : option field_error :=
  match value with
  | JStr _ => None
  | _ => Some (Messages ["Not a valid string."])
  end.

(** [fields.Email()]: a string that passes [validate.Email]. *)
Definition fields_Email (value : json) : option field_error :=
  match value with
  | JStr s => if valid_email s then None else Some (Messages ["Not a valid email address."])
  | _ => Some (Messages ["Not a valid email address."])
  end.

(** The errors of the elements of a [fields.List(fields.Str)], by index. *)
Fixpoint each_errors (idx : nat) (value : list json) : list (nat * list string) :=
  match value with
  | [] => []
  | each :: rest =>
      match deserialize true fields_Str (Some each) with
      | Some (Messages msgs) => (idx, msgs) :: each_errors (S idx) rest
      | _ => each_errors (S idx) rest
      end
  end.

(** [fields.List(fields.Str, validate=validate.Length(min=1))]: the length
    is validated once the elements have been deserialized. *)
Definition fields_List (value : json) : option field_error :=
  match value with
  | JList l =>
      match each_errors 0 l with
      | [] =>
          if decide (length l < 1)%nat then Some (Messages ["Shorter than minimum length 1."])
          else None
      | errs => Some (Indexed errs)
      end
  | _ => Some (Messages ["Not a valid list."])
  end.

(** The fields [UserSchema] declares, in their order. *)
Definition UserSchema : list (string * (option json -> option field_error)) :=
  [ ("id", deserialize false fields_Int);
    ("firstname", deserialize true fields_Str);
    ("lastname", deserialize true fields_Str);
    ("username", deserialize true fields_Str);
    ("email", deserialize true fields_Email);
    ("roles", deserialize true fields_List) ].

(** The keys of an item that the schema does not declare. marshmallow
    raises on them ([unknown = RAISE] is its default). *)
Definition unknown_keys (d : gmap string json) : list string :=
  filter (fun key => key ∉ UserSchema.*1) (map_to_list d).*1.

(** [Schema._deserialize] on one item of the batch: the failures of the
    item, none when it loads. *)
Definition load_item (data : json) : failure :=
  match data with
  | JDict d =>
      omap (fun '(field_name, field_obj) => pair field_name <$> field_obj (d !! field_name))
           UserSchema
      ++ ((fun key => (key, Messages ["Unknown field."])) <$> unknown_keys d)
  | _ => [("_schema", Messages ["Invalid input type."])]
  end.

(** The rows that fail from row [idx] on, with their failures. *)
Fixpoint load_from (idx : nat) (data : list json) : normalized_messages :=
  match data with
  | [] => []
  | d :: rest =>
      match load_item d with
      | [] => load_from (S idx) rest
      | fail => (idx, fail) :: load_from (S idx) rest
      end
  end.

(** [UserSchema(many=True).load(users_list)]: every item is deserialized
    and the failures are collected by row; [[]] stands for a load that
    returns, anything else for the [ValidationError] it raises. *)
Definition load (users_list : list json) : normalized_messages := load_from 0 users_list.

(** The lines [_import_users] builds from [e.normalized_messages()]. *)
Definition msg_of (errors : normalized_messages) : list msg_line :=
  flat_map (fun '(row_num, fail) =>
              ItemLine row_num :: ((fun '(key, value) => FieldLine key value) <$> fail))
           errors.

(** ** Subscripting and iterating values read from JSON *)

(** [user[key]]. *)
Definition getitem (user : json) (key : string) : M json :=
  match user with
  | JDict d =>
      match d !! key with
      | Some value => ret value
      | None => raise (KeyError key)
      end
  | _ => raise TypeError
  end.

(** [for x in value]: the elements of a list. Behind the schema the value
    iterated is a list; another value is a [TypeError] here. *)
Definition iter (value : json) : M (list json) :=
  match value with
  | JList l => ret l
  | _ => raise TypeError
  end.

(** A value used as a string. Behind the schema it is one; another value is
    a [TypeError] here. *)
Definition str (value : json) : M string :=
  match value with
  | JStr s => ret s
  | _ => raise TypeError
  end.

(** ** The commands *)

(** [_create_password]. *)
Definition _create_password (args : Namespace) : M string :=
  if arg_use_random_password args then fun w => (Return (random_choices w), w)
  else if truthy (arg_password args) then ret (arg_password args)
  else
    pw <- getpass ;;
    password_confirmation <- getpass ;;
    if negb (String.eqb pw password_confirmation) then raise (SystemExit PasswordsDidNotMatch)
    else ret pw.

(** [users_create]. *)
Definition users_create (args : Namespace) : M unit :=
  with_appbuilder (
    role <- find_role (arg_role args) ;;
    match role with
    | None =>
        valid_roles <- get_all_roles ;;
        raise (SystemExit (NotAValidRole (arg_role args) valid_roles))
    | Some role =>
        pw <- _create_password args ;;
        existing <- find_user (arg_username args) "" ;;
        match existing with
        | Some _ => print (AlreadyExist (arg_username args))
        | None =>
            user <- add_user (arg_username args) (arg_firstname args) (arg_lastname args)
                             (arg_email args) [role] pw ;;
            match user with
            | Some _ => print (UserCreated (arg_username args) (arg_role args))
            | None => raise (SystemExit FailedToCreateUser)
            end
        end
    end).

(** [_find_user]. *)
Definition _find_user (args : Namespace) : M nat :=
  if negb (truthy (arg_username args)) && negb (truthy (arg_email args)) then
    raise (SystemExit MissingArgs)
  else if truthy (arg_username args) && truthy (arg_email args) then
    raise (SystemExit ConflictingArgs)
  else
    with_appbuilder (
      user <- find_user (arg_username args) (arg_email args) ;;
      match user with
      | None =>
          raise (SystemExit (UserDoesNotExist
                   (if truthy (arg_username args) then arg_username args else arg_email args)))
      | Some user => ret user
      end).

(** [user_reset_password]. *)
Definition user_reset_password (args : Namespace) : M unit :=
  user <- _find_user args ;;
  pw <- _create_password args ;;
  with_appbuilder (
    userid <- getattr user id ;;
    ok <- reset_password userid pw ;;
    if ok : bool then
      user_name <- getattr user username ;;
      print (PasswordReset user_name)
    else raise (SystemExit FailedToResetPassword)).

(** [users_delete]. The username printed at the end is read from the object
    before the store is asked to delete it: the object outlives its row in
    the store, its position here does not. *)
Definition users_delete (args : Namespace) : M unit :=
  user <- _find_user args ;;
  setattr user (set_roles []) ;;
  with_appbuilder (
    user_name <- getattr user username ;;
    ok <- del_register_user user ;;
    if ok : bool then print (UserDeleted user_name)
    else raise (SystemExit FailedToDeleteUser)).

(** [users_manage_role]. *)
Definition users_manage_role (args : Namespace) (remove : bool) : M unit :=
  user <- _find_user args ;;
  with_appbuilder (
    role <- find_role (arg_role args) ;;
    match role with
    | None =>
        valid_roles <- get_all_roles ;;
        raise (SystemExit (NotAValidRole (arg_role args) valid_roles))
    | Some role =>
        user_roles <- getattr user roles ;;
        user_name <- getattr user username ;;
        if remove then
          if bool_decide (role ∉ user_roles) then
            raise (SystemExit (NotAMember user_name (arg_role args)))
          else
            setattr user (set_roles (filter (fun r => r ≠ role) user_roles)) ;;
            update_user user ;;
            print (RemovedFromRole user_name (arg_role args))
        else
          if bool_decide (role ∈ user_roles) then
            raise (SystemExit (AlreadyAMember user_name (arg_role args)))
          else
            setattr user (set_roles (user_roles ++ [role])) ;;
            update_user user ;;
            print (AddedToRole user_name (arg_role args))
    end).

Definition add_role (args : Namespace) : M unit := users_manage_role args false.
Definition remove_role (args : Namespace) : M unit := users_manage_role args true.

(** The dictionary [users_export] makes of a user: the six fields, with
    [first_name] and [last_name] under the keys [firstname] and [lastname],
    and the roles by their names. *)
Definition export_user (u : User) : json :=
  JDict (list_to_map
    [ ("id", JInt (id u));
      ("username", JStr (username u));
      ("email", JStr (email u));
      ("firstname", JStr (first_name u));
      ("lastname", JStr (last_name u));
      ("roles", JList (JStr <$> (name <$> roles u))) ]).

(** [users_export]: the list of dictionaries that is dumped to the file, as
    [json.loads] reads it back. *)
Definition users_export : M (list json) :=
  with_appbuilder (
    us <- get_all_users ;;
    ret (export_user <$> us)).

(** The inner loop of [_import_users]: [for rolename in user["roles"]]. *)
Fixpoint resolve_roles (rolenames : list json) (rs : list Role) : M (list Role) :=
  match rolenames with
  | [] => ret rs
  | rolename :: rest =>
      rolename <- str rolename ;;
      role <- find_role rolename ;;
      match role with
      | None =>
          valid_roles <- get_all_roles ;;
          raise (SystemExit (NotAValidRole rolename valid_roles))
      | Some role => resolve_roles rest (rs ++ [role])
      end
  end.

(** The body of the outer loop of [_import_users], for one [user] of the
    list; [users_created] and [users_updated] are the two lists the loop
    appends to. *)
Definition import_user (user : json) (lists : list string * list string)
    : M (list string * list string) :=
  let '(users_created, users_updated) := lists in
  rolenames <- (v <- getitem user "roles" ;; iter v) ;;
  rs <- resolve_roles rolenames [] ;;
  user_email <- (v <- getitem user "email" ;; str v) ;;
  existing_user <- find_user "" user_email ;;
  match existing_user with
  | Some existing_user =>
      print (FoundExistingUser user_email) ;;
      existing_username <- getattr existing_user username ;;
      user_username <- (v <- getitem user "username" ;; str v) ;;
      if negb (String.eqb existing_username user_username) then
        raise (SystemExit (UsernameChangeNotAllowed user_email))
      else
        setattr existing_user (set_roles rs) ;;
        firstname <- (v <- getitem user "firstname" ;; str v) ;;
        setattr existing_user (set_first_name firstname) ;;
        lastname <- (v <- getitem user "lastname" ;; str v) ;;
        setattr existing_user (set_last_name lastname) ;;
        update_user existing_user ;;
        ret (users_created, users_updated ++ [user_email])
  | None =>
      print (CreatingNewUser user_email) ;;
      user_username <- (v <- getitem user "username" ;; str v) ;;
      firstname <- (v <- getitem user "firstname" ;; str v) ;;
      lastname <- (v <- getitem user "lastname" ;; str v) ;;
      add_user user_username firstname lastname user_email rs "" ;;
      ret (users_created ++ [user_email], users_updated)
  end.

(** The outer loop of [_import_users]: [for user in users_list]. *)
Fixpoint import_loop (users_list : list json) (lists : list string * list string)
    : M (list string * list string) :=
  match users_list with
  | [] => ret lists
  | user :: rest =>
      lists <- import_user user lists ;;
      import_loop rest lists
  end.

(** [_import_users]. *)
Definition _import_users (users_list : list json) : M (list string * list string) :=
  with_appbuilder (
    match load users_list with
    | [] => import_loop users_list ([], [])
    | errors => raise (SystemExit (DidNotPassValidation (msg_of errors)))
    end).

(** ** Properties of the schema *)

(** A field fails on a value of its item. *)
Definition field_failure (d : gmap string json)
    (declared : string * (option json -> option field_error)) : option (string * field_error) :=
  pair declared.1 <$> declared.2 (d !! declared.1).

Lemma load_item_dict (d : gmap string json) :
  load_item (JDict d)
  = omap (field_failure d) UserSchema
    ++ ((fun key => (key, Messages ["Unknown field."])) <$> unknown_keys d).
Proof. reflexivity. Qed.


Lemma unknown_keys_elem (d : gmap string json) (key : string) :
  key ∈ unknown_keys d ↔ is_Some (d !! key) ∧ key ∉ UserSchema.*1.
Proof.
  unfold unknown_keys. rewrite list_elem_of_filter. split.
  - intros [Hnot Hin]. split; [|done].
    apply list_elem_of_fmap in Hin as [[k v] [-> Hin]].
    apply elem_of_map_to_list in Hin. by exists v.
  - intros [[v Hv] Hnot]. split; [done|].
    apply list_elem_of_fmap. exists (key, v). split; [done|]. by apply elem_of_map_to_list.
Qed.


(** The rows reported are the rows that fail, each with its failures. *)
Lemma load_from_elem (data : list json) (idx i : nat) (fail : failure) :
  (i, fail) ∈ load_from idx data
  ↔ ∃ j user, i = (idx + j)%nat ∧ data !! j = Some user
              ∧ load_item user = fail ∧ fail ≠ [].
Proof.
  revert idx. induction data as [|d rest IH]; intros idx; simpl.
  - split; [by intros ?%elem_of_nil|]. by intros (j & user & _ & ? & _).
  - assert ((i, fail) ∈ load_from (S idx) rest
            ↔ ∃ j user, i = (idx + S j)%nat ∧ rest !! j = Some user
                        ∧ load_item user = fail ∧ fail ≠ []) as IH'.
    { rewrite IH. split; intros (j & user & -> & ?); exists j, user; split; auto; lia. }
    destruct (load_item d) as [|f fs] eqn:Hd.
    + rewrite IH'. split.
      * intros (j & user & -> & ? & ? & ?). by exists (S j), user.
      * intros ([|j] & user & -> & Hj & Hfail & Hne); simpl in Hj.
        -- congruence.
        -- by exists j, user.
    + rewrite elem_of_cons, IH'. split.
      * intros [[= -> ->]|(j & user & -> & ? & ? & ?)].
        -- exists 0%nat, d. split_and!; auto with lia.
        -- by exists (S j), user.
      * intros ([|j] & user & -> & Hj & Hfail & Hne); simpl in Hj.
        -- left. f_equal; [lia|congruence].
        -- right. by exists j, user.
Qed.


Lemma load_elem (users_list : list json) (i : nat) (fail : failure) :
  (i, fail) ∈ load users_list
  ↔ ∃ user, users_list !! i = Some user ∧ load_item user = fail ∧ fail ≠ [].
Proof.
  unfold load. rewrite load_from_elem. split.
  - intros (j & user & -> & ?). by exists user.
  - intros (user & ?). by exists i, user.
Qed.

(** The batch loads exactly when every item of it does. *)
Lemma load_nil (users_list : list json) :
  load users_list = [] ↔ Forall (fun user => load_item user = []) users_list.
Proof.
  rewrite Forall_lookup. split.
  - intros Hnil i user Hi.
    destruct (load_item user) as [|f fs] eqn:Hfail; [done|].
    assert ((i, f :: fs) ∈ load users_list) as Hin by (apply load_elem; by exists user).
    rewrite Hnil in Hin. by apply elem_of_nil in Hin.
  - intros Hall. destruct (load users_list) as [|[i fail] errors] eqn:Hload; [done|].
    assert ((i, fail) ∈ load users_list) as Hin by (rewrite Hload; left).
    apply load_elem in Hin as (user & Hi & Hfail & Hne).
    apply Hall in Hi. congruence.
Qed.


(** *** When an item loads *)

(** The values [fields.Int()] converts. *)
Definition int_like (value : json) : Prop :=
  match value with
  | JInt _ => True
  | JFloat f => PrimFloat.is_nan f = false ∧ PrimFloat.is_infinity f = false
  | JStr s => int_literal s = true
  | _ => False
  end.

Lemma Str_loads (raw_value : option json) :
  deserialize true fields_Str raw_value = None ↔ ∃ s, raw_value = Some (JStr s).
Proof.
  split.
  - destruct raw_value as [[]|]; simpl; try done. eauto.
  - by intros [s ->].
Qed.

Lemma Email_loads (raw_value : option json) :
  deserialize true fields_Email raw_value = None
  ↔ ∃ s, raw_value = Some (JStr s) ∧ valid_email s = true.
Proof.
  split.
  - destruct raw_value as [[| | | |s| |]|]; simpl; try done.
    destruct (valid_email s) eqn:Hs; [eauto|done].
  - intros (s & -> & Hs). simpl. by rewrite Hs.
Qed.

Lemma Int_loads (raw_value : option json) :
  deserialize false fields_Int raw_value = None ↔ ∀ value, raw_value = Some value → int_like value.
Proof.
  split.
  - destruct raw_value as [value|]; [|done]. intros Hload ? [= <-].
    destruct value as [| | |f|s| |]; simpl in *; try done.
    + destruct (PrimFloat.is_nan f); [done|].
      by destruct (PrimFloat.is_infinity f).
    + by destruct (int_literal s).
  - destruct raw_value as [value|]; [|done]. intros Hlike.
    specialize (Hlike value eq_refl).
    destruct value as [| | |f|s| |]; simpl in *; try done.
    + destruct Hlike as [-> ->]. done.
    + by rewrite Hlike.
Qed.

Lemma each_errors_nil (value : list json) (idx : nat) :
  each_errors idx value = [] ↔ ∃ rs : list string, value = JStr <$> rs.
Proof.
  revert idx. induction value as [|each rest IH]; intros idx; simpl.
  - split; [|done]. intros _. by exists [].
  - split.
    + destruct each; simpl; try done.
      intros [rs ->]%IH. by exists (s :: rs).
    + intros [[|r rs] [= -> ->]]. simpl. apply IH. by exists rs.
Qed.

Lemma List_loads (raw_value : option json) :
  deserialize true fields_List raw_value = None
  ↔ ∃ rs : list string, raw_value = Some (JList (JStr <$> rs)) ∧ rs ≠ [].
Proof.
  split.
  - destruct raw_value as [[| | | | |l|]|]; simpl; try done.
    destruct (each_errors 0 l) eqn:Herrs; [|done].
    apply each_errors_nil in Herrs as [rs ->].
    case_decide; [done|]. intros _. exists rs. split; [done|].
    intros ->. simpl in *. lia.
  - intros (rs & -> & Hne). simpl.
    rewrite (proj2 (each_errors_nil (JStr <$> rs) 0)) by eauto.
    case_decide as Hlen; [|done]. destruct rs; [done|]. simpl in Hlen. lia.
Qed.

(** An item loads when it is an object in which the three names are
    strings, the email is a string the validator takes, the roles are a
    list of strings with at least one in it, the id (if there is one) is
    something [int] converts, and there is no other key. *)
Lemma load_item_nil (data : json) :
  load_item data = []
  ↔ ∃ d, data = JDict d
       ∧ (∃ s, d !! "firstname" = Some (JStr s))
       ∧ (∃ s, d !! "lastname" = Some (JStr s))
       ∧ (∃ s, d !! "username" = Some (JStr s))
       ∧ (∃ s, d !! "email" = Some (JStr s) ∧ valid_email s = true)
       ∧ (∃ rs : list string, d !! "roles" = Some (JList (JStr <$> rs)) ∧ rs ≠ [])
       ∧ (∀ value, d !! "id" = Some value → int_like value)
       ∧ (∀ key, is_Some (d !! key)
                 → key ∈ ["id"; "firstname"; "lastname"; "username"; "email"; "roles"]).
Proof.
  assert (∀ d, unknown_keys d = []
               ↔ ∀ key, is_Some (d !! key)
                        → key ∈ ["id"; "firstname"; "lastname"; "username"; "email"; "roles"])
    as Hunknown.
  { intros d. split.
    - intros Hnil key Hkey.
      destruct (decide (key ∈ UserSchema.*1)) as [|Hnot]; [done|].
      assert (key ∈ unknown_keys d) as Hin by (by apply unknown_keys_elem).
      rewrite Hnil in Hin. by apply elem_of_nil in Hin.
    - intros Hall. destruct (unknown_keys d) as [|key keys] eqn:Hkeys; [done|].
      assert (key ∈ unknown_keys d) as Hin by (rewrite Hkeys; left).
      apply unknown_keys_elem in Hin as [Hsome Hnot]. destruct Hnot. by apply Hall. }
  destruct data as [| | | | | |d];
    try (split; [done|by intros (d & [=] & _)]).
  rewrite load_item_dict. split.
  - intros [Hfields Hkeys]%app_eq_nil.
    apply fmap_nil_inv in Hkeys. pose proof (proj1 (Hunknown d) Hkeys) as Hdeclared.
    unfold UserSchema, field_failure in Hfields. simpl in Hfields.
    destruct (deserialize false fields_Int (d !! "id")) eqn:Hid; [done|].
    destruct (deserialize true fields_Str (d !! "firstname")) eqn:Hfirst; [done|].
    destruct (deserialize true fields_Str (d !! "lastname")) eqn:Hlast; [done|].
    destruct (deserialize true fields_Str (d !! "username")) eqn:Huser; [done|].
    destruct (deserialize true fields_Email (d !! "email")) eqn:Hemail; [done|].
    destruct (deserialize true fields_List (d !! "roles")) eqn:Hroles; [done|].
    exists d. split_and!; try done.
    + by apply Str_loads.
    + by apply Str_loads.
    + by apply Str_loads.
    + by apply Email_loads.
    + by apply List_loads.
    + by apply Int_loads.
  - intros (? & [= <-] & Hfirst & Hlast & Huser & Hemail & Hroles & Hid & Hkeys).
    apply Str_loads in Hfirst, Hlast, Huser.
    apply Email_loads in Hemail. apply List_loads in Hroles. apply Int_loads in Hid.
    apply (proj2 (Hunknown d)) in Hkeys.
    unfold UserSchema, field_failure. simpl.
    by rewrite Hid, Hfirst, Hlast, Huser, Hemail, Hroles, Hkeys.
Qed.

(** ** Running the commands *)

(** The value under a key of an item, when the item is an object that has
    the key. *)
Definition field (user : json) (key : string) : option json :=
  match user with
  | JDict d => d !! key
  | _ => None
  end.

Lemma getitem_field (user : json) (key : string) (value : json) (w : World) :
  field user key = Some value → getitem user key w = (Return value, w).
Proof.
  destruct user; simpl; try done. intros Hkey. unfold getitem. by rewrite Hkey.
Qed.

Lemma with_calls_nil (w : World) : with_calls (calls w ++ []) w = w.
Proof. destruct w. unfold with_calls; simpl. by rewrite app_nil_r. Qed.

(** Every role name of a list resolves: the roles are looked up one after
    the other and appended. *)
Lemma resolve_roles_all (rolenames : list string) (found rs : list Role) (w : World) :
  Forall2 (fun rolename role => role_named rolename (all_roles w) = Some role) rolenames found →
  resolve_roles (JStr <$> rolenames) rs w
  = (Return (rs ++ found), with_calls (calls w ++ (FindRole <$> rolenames)) w).
Proof.
  intros Hall. revert found rs w Hall.
  induction rolenames as [|rolename rest IH]; intros found rs w Hall.
  - apply Forall2_nil_inv_l in Hall as ->. simpl.
    by rewrite app_nil_r, with_calls_nil.
  - apply Forall2_cons_inv_l in Hall as (role & found' & Hrole & Hrest & ->).
    simpl. unfold bind, str, ret, find_role. simpl. rewrite Hrole.
    rewrite (IH found'); [|done]. simpl.
    by rewrite <- !app_assoc.
Qed.

(** The first role name that does not resolve stops the loop: the names
    before it have been looked up, and nothing else has happened. *)
Lemma resolve_roles_unknown (good : list string) (bad : string) (rest : list string)
    (found rs : list Role) (w : World) :
  Forall2 (fun rolename role => role_named rolename (all_roles w) = Some role) good found →
  role_named bad (all_roles w) = None →
  resolve_roles (JStr <$> (good ++ bad :: rest)) rs w
  = (Raise (SystemExit (NotAValidRole bad (all_roles w))),
     with_calls (calls w ++ (FindRole <$> good) ++ [FindRole bad; GetAllRoles]) w).
Proof.
  intros Hall Hbad. revert found rs w Hall Hbad.
  induction good as [|rolename good IH]; intros found rs w Hall Hbad.
  - simpl. unfold bind, str, ret, find_role, get_all_roles, raise. simpl.
    rewrite Hbad. simpl. by rewrite <- !app_assoc.
  - apply Forall2_cons_inv_l in Hall as (role & found' & Hrole & Hrest & ->).
    simpl. unfold bind, str, ret, find_role. simpl. rewrite Hrole.
    rewrite (IH found'); [|done..]. simpl.
    by rewrite <- !app_assoc.
Qed.

(** A list with a name that does not resolve splits at the first such name. *)
Lemma first_unknown (rolenames : list string) (rs : list Role) :
  Exists (fun rolename => role_named rolename rs = None) rolenames →
  ∃ good bad rest found,
    rolenames = good ++ bad :: rest
    ∧ Forall2 (fun rolename role => role_named rolename rs = Some role) good found
    ∧ role_named bad rs = None.
Proof.
  induction rolenames as [|rolename rolenames IH]; intros Hex.
  - by apply Exists_nil in Hex.
  - destruct (role_named rolename rs) as [role|] eqn:Hrole.
    + apply Exists_cons in Hex as [Hex|Hex]; [congruence|].
      destruct (IH Hex) as (good & bad & rest & found & -> & Hgood & Hbad).
      exists (rolename :: good), bad, rest, (role :: found). split_and!; try done.
      by constructor.
    + exists [], rolename, rolenames, []. split_and!; done.
Qed.

Lemma lookup_user_Some (attr : User → string) (key : string) (us : list User) (i : nat) :
  lookup_user attr key us = Some i → ∃ u, us !! i = Some u ∧ attr u = key.
Proof.
  unfold lookup_user. intros [[j u] [Hfind [= ->]]]%fmap_Some.
  apply list_find_Some in Hfind as (Hi & Hkey & _). by exists u.
Qed.

Lemma user_found_Some (user_name user_email : string) (us : list User) (i : nat) :
  user_found user_name user_email us = Some i → is_Some (us !! i).
Proof.
  unfold user_found. repeat case_match; try done.
  all: by intros (u & -> & _)%lookup_user_Some.
Qed.

(** The user found by email alone has that email. *)
Lemma user_found_email (user_email : string) (us : list User) (i : nat) :
  user_found "" user_email us = Some i → ∃ u, us !! i = Some u ∧ email u = user_email.
Proof.
  unfold user_found. simpl. case_match; [|done]. apply lookup_user_Some.
Qed.

(** *** One record of the import *)

Section ImportRecord.

(** A record of the batch: an item with its five fields read. *)
Variables (user : json) (firstname lastname user_username user_email : string)
          (rolenames : list string).
Hypothesis Hfirstname : field user "firstname" = Some (JStr firstname).
Hypothesis Hlastname : field user "lastname" = Some (JStr lastname).
Hypothesis Husername : field user "username" = Some (JStr user_username).
Hypothesis Hemail : field user "email" = Some (JStr user_email).
Hypothesis Hroles : field user "roles" = Some (JList (JStr <$> rolenames)).

(** The email is the email of a user with the record's username: the user
    gets the record's roles and names, and the email goes to the updated. *)
Lemma import_user_update (users_created users_updated : list string) (w : World)
    (rs : list Role) (existing_user : nat) (u : User) :
  Forall2 (fun rolename role => role_named rolename (all_roles w) = Some role) rolenames rs →
  user_found "" user_email (users w) = Some existing_user →
  users w !! existing_user = Some u →
  username u = user_username →
  let u' := mkUser (id u) (username u) (email u) firstname lastname rs (password u) in
  import_user user (users_created, users_updated) w
  = (Return (users_created, users_updated ++ [user_email]),
     mkWorld (<[existing_user := u']> (users w)) (all_roles w)
             (calls w ++ (FindRole <$> rolenames) ++ [FindUser "" user_email; UpdateUser u'])
             (stdout w ++ [FoundExistingUser user_email]) (tty w) (random_choices w)).
Proof using Hfirstname Hlastname Husername Hemail Hroles.
  intros Hall Hfound Hu Hsame u'. unfold import_user.
  unfold bind at 1. unfold bind at 1. erewrite getitem_field by done. simpl.
  unfold bind at 1. erewrite resolve_roles_all by done. simpl.
  unfold bind at 1. unfold bind at 1. erewrite getitem_field by done. simpl.
  unfold bind at 1. unfold find_user at 1. simpl. rewrite Hfound.
  unfold bind at 1. simpl.
  unfold bind at 1. unfold getattr at 1. simpl. rewrite Hu.
  unfold bind at 1. unfold bind at 1. erewrite getitem_field by done. simpl.
  rewrite Hsame, String.eqb_refl. simpl.
  unfold bind at 1. unfold setattr at 1. simpl. rewrite Hu.
  unfold bind at 1. unfold bind at 1. erewrite getitem_field by done. simpl.
  unfold bind at 1. unfold setattr at 1. simpl.
  rewrite list_lookup_insert_eq by (by eapply lookup_lt_Some).
  unfold bind at 1. unfold bind at 1. erewrite getitem_field by done. simpl.
  unfold bind at 1. unfold setattr at 1. simpl.
  rewrite list_lookup_insert_eq by (rewrite !length_insert; by eapply lookup_lt_Some).
  unfold bind at 1. unfold update_user, bind, getattr, called, ret. simpl.
  rewrite list_lookup_insert_eq by (rewrite !length_insert; by eapply lookup_lt_Some).
  rewrite !list_insert_insert_eq. unfold set_last_name, set_first_name, set_roles; simpl.
  subst u'. rewrite Hsame. by rewrite <- !app_assoc.
Qed.

(** The email is the email of a user with another username: the import
    stops, and the store has only been read. *)
Lemma import_user_conflict (lists : list string * list string) (w : World)
    (rs : list Role) (existing_user : nat) (u : User) :
  Forall2 (fun rolename role => role_named rolename (all_roles w) = Some role) rolenames rs →
  user_found "" user_email (users w) = Some existing_user →
  users w !! existing_user = Some u →
  username u ≠ user_username →
  import_user user lists w
  = (Raise (SystemExit (UsernameChangeNotAllowed user_email)),
     mkWorld (users w) (all_roles w)
             (calls w ++ (FindRole <$> rolenames) ++ [FindUser "" user_email])
             (stdout w ++ [FoundExistingUser user_email]) (tty w) (random_choices w)).
Proof using Husername Hemail Hroles.
  intros Hall Hfound Hu Hdiffer. destruct lists as [users_created users_updated].
  apply String.eqb_neq in Hdiffer.
  unfold import_user.
  unfold bind at 1. unfold bind at 1. erewrite getitem_field by done. simpl.
  unfold bind at 1. erewrite resolve_roles_all by done. simpl.
  unfold bind at 1. unfold bind at 1. erewrite getitem_field by done. simpl.
  unfold bind at 1. unfold find_user at 1. simpl. rewrite Hfound.
  unfold bind at 1. simpl.
  unfold bind at 1. unfold getattr at 1. simpl. rewrite Hu.
  unfold bind at 1. unfold bind at 1. erewrite getitem_field by done. simpl.
  rewrite Hdiffer. simpl. unfold raise. by rewrite <- !app_assoc.
Qed.

Lemma user_found_absent (key : string) (us : list User) :
  lookup_user email key us = None → user_found "" key us = None.
Proof. unfold user_found. simpl. by case_match. Qed.


(** No user has the email, but one has the username: the store turns the
    request down, and the email goes to the created all the same. *)
Lemma import_user_create_refused (users_created users_updated : list string) (w : World)
    (rs : list Role) (taken : nat) :
  Forall2 (fun rolename role => role_named rolename (all_roles w) = Some role) rolenames rs →
  lookup_user email user_email (users w) = None →
  lookup_user username user_username (users w) = Some taken →
  import_user user (users_created, users_updated) w
  = (Return (users_created ++ [user_email], users_updated),
     mkWorld (users w) (all_roles w)
             (calls w ++ (FindRole <$> rolenames)
                ++ [FindUser "" user_email;
                    AddUser user_username firstname lastname user_email rs ""])
             (stdout w ++ [CreatingNewUser user_email]) (tty w) (random_choices w)).
Proof using Hfirstname Hlastname Husername Hemail Hroles.
  intros Hall Hfree_email Htaken. unfold import_user.
  unfold bind at 1. unfold bind at 1. erewrite getitem_field by done. simpl.
  unfold bind at 1. erewrite resolve_roles_all by done. simpl.
  unfold bind at 1. unfold bind at 1. erewrite getitem_field by done. simpl.
  unfold bind at 1. unfold find_user at 1. simpl.
  rewrite user_found_absent by done.
  unfold bind at 1. simpl.
  unfold bind at 1. unfold bind at 1. erewrite getitem_field by done. simpl.
  unfold bind at 1. unfold bind at 1. erewrite getitem_field by done. simpl.
  unfold bind at 1. unfold bind at 1. erewrite getitem_field by done. simpl.
  unfold bind at 1. unfold add_user. simpl.
  rewrite Htaken. unfold ret. simpl.
  by rewrite <- !app_assoc.
Qed.

(** No user is found by the email: the body returns, with the email among
    the created. *)
Lemma import_user_absent (users_created users_updated : list string) (w : World)
    (rs : list Role) :
  Forall2 (fun rolename role => role_named rolename (all_roles w) = Some role) rolenames rs →
  user_found "" user_email (users w) = None →
  (import_user user (users_created, users_updated) w).1
  = Return (users_created ++ [user_email], users_updated).
Proof using Hfirstname Hlastname Husername Hemail Hroles.
  intros Hall Hnone. unfold import_user.
  unfold bind at 1. unfold bind at 1. erewrite getitem_field by done. simpl.
  unfold bind at 1. erewrite resolve_roles_all by done. simpl.
  unfold bind at 1. unfold bind at 1. erewrite getitem_field by done. simpl.
  unfold bind at 1. unfold find_user at 1. simpl. rewrite Hnone.
  unfold bind at 1. simpl.
  unfold bind at 1. unfold bind at 1. erewrite getitem_field by done. simpl.
  unfold bind at 1. unfold bind at 1. erewrite getitem_field by done. simpl.
  unfold bind at 1. unfold bind at 1. erewrite getitem_field by done. simpl.
  unfold bind at 1. unfold add_user, ret. simpl. by repeat case_match.
Qed.

(** A role name of the record does not resolve: the import stops at the
    first such name, and the store has only been read. *)
Lemma import_user_unknown_role (lists : list string * list string) (w : World) :
  Exists (fun rolename => role_named rolename (all_roles w) = None) rolenames →
  ∃ good bad,
    good ++ [bad] `prefix_of` rolenames
    ∧ role_named bad (all_roles w) = None
    ∧ import_user user lists w
      = (Raise (SystemExit (NotAValidRole bad (all_roles w))),
         with_calls (calls w ++ (FindRole <$> good) ++ [FindRole bad; GetAllRoles]) w).
Proof using Hroles.
  intros (good & bad & rest & found & Hsplit & Hgood & Hbad)%first_unknown.
  exists good, bad. split_and!; [|done|].
  - exists rest. by rewrite Hsplit, <- app_assoc.
  - destruct lists as [users_created users_updated]. unfold import_user.
    unfold bind at 1. unfold bind at 1. erewrite getitem_field by done. simpl.
    unfold bind at 1. rewrite Hsplit. by erewrite resolve_roles_unknown.
Qed.

End ImportRecord.

(** *** The roles of the store are never changed *)

Definition keeps_roles {A} (m : M A) : Prop := ∀ w, all_roles (m w).2 = all_roles w.

Create HintDb keeps discriminated.

Lemma keeps_roles_ret {A} (a : A) : keeps_roles (ret a).
Proof. done. Qed.

Lemma keeps_roles_raise {A} (e : exn) : keeps_roles (@raise A e).
Proof. done. Qed.

Lemma keeps_roles_bind {A B} (m : M A) (k : A → M B) :
  keeps_roles m → (∀ a, keeps_roles (k a)) → keeps_roles (bind m k).
Proof.
  intros Hm Hk w. unfold bind. specialize (Hm w).
  destruct (m w) as [[a|e] w']; simpl in *; [|done].
  by rewrite Hk.
Qed.

Lemma keeps_roles_print (l : line) : keeps_roles (print l).
Proof. done. Qed.

Lemma keeps_roles_called (c : call) : keeps_roles (called c).
Proof. done. Qed.

Lemma keeps_roles_getattr {A} (user : nat) (attr : User → A) : keeps_roles (getattr user attr).
Proof. intros w. unfold getattr. by case_match. Qed.

Lemma keeps_roles_setattr (user : nat) (assign : User → User) : keeps_roles (setattr user assign).
Proof. intros w. unfold setattr. by case_match. Qed.

Lemma keeps_roles_find_role (role : string) : keeps_roles (find_role role).
Proof. done. Qed.

Lemma keeps_roles_get_all_roles : keeps_roles get_all_roles.
Proof. done. Qed.

Lemma keeps_roles_find_user (user_name user_email : string) :
  keeps_roles (find_user user_name user_email).
Proof. done. Qed.

Lemma keeps_roles_add_user (user_name first last user_email : string) (role : list Role)
    (pw : string) :
  keeps_roles (add_user user_name first last user_email role pw).
Proof. intros w. unfold add_user. simpl. by repeat case_match. Qed.

Lemma keeps_roles_getitem (user : json) (key : string) : keeps_roles (getitem user key).
Proof. intros w. unfold getitem. by repeat case_match. Qed.

Lemma keeps_roles_iter (value : json) : keeps_roles (iter value).
Proof. intros w. unfold iter. by case_match. Qed.

Lemma keeps_roles_str (value : json) : keeps_roles (str value).
Proof. intros w. unfold str. by case_match. Qed.

#[local] Hint Resolve keeps_roles_ret keeps_roles_raise keeps_roles_print keeps_roles_called
  keeps_roles_getattr keeps_roles_setattr keeps_roles_find_role keeps_roles_get_all_roles
  keeps_roles_find_user keeps_roles_add_user keeps_roles_getitem keeps_roles_iter
  keeps_roles_str : keeps.

Ltac keeps_roles_step :=
  first [ apply keeps_roles_bind; [|intros ?] | progress auto with keeps ].

Lemma keeps_roles_update_user (user : nat) : keeps_roles (update_user user).
Proof. unfold update_user. repeat keeps_roles_step. Qed.

Lemma keeps_roles_resolve_roles (rolenames : list json) (rs : list Role) :
  keeps_roles (resolve_roles rolenames rs).
Proof.
  revert rs. induction rolenames as [|rolename rest IH]; intros rs; simpl.
  - auto with keeps.
  - repeat keeps_roles_step. case_match; [apply IH|]. repeat keeps_roles_step.
Qed.

Lemma keeps_roles_import_user (user : json) (lists : list string * list string) :
  keeps_roles (import_user user lists).
Proof.
  pose proof keeps_roles_update_user. pose proof keeps_roles_resolve_roles.
  destruct lists as [users_created users_updated]. unfold import_user.
  repeat keeps_roles_step. case_match; repeat keeps_roles_step.
  case_match; repeat keeps_roles_step.
Qed.

Lemma keeps_roles_import_loop (users_list : list json) (lists : list string * list string) :
  keeps_roles (import_loop users_list lists).
Proof.
  revert lists. induction users_list as [|user rest IH]; intros lists; simpl.
  - auto with keeps.
  - apply keeps_roles_bind; [apply keeps_roles_import_user|done].
Qed.

(** *** The batch *)

Lemma _import_users_loaded (users_list : list json) (w : World) :
  load users_list = [] →
  _import_users users_list w
  = let '(r, w') := import_loop users_list ([], []) (with_calls (calls w ++ [Enter]) w) in
    (r, with_calls (calls w' ++ [Exit]) w').
Proof.
  intros Hload. unfold _import_users, with_appbuilder. rewrite Hload.
  unfold bind, called. simpl. by destruct (import_loop _ _ _) as [[] ?].
Qed.

Lemma import_loop_app (before after : list json) (lists : list string * list string)
    (w : World) :
  import_loop (before ++ after) lists w
  = match import_loop before lists w with
    | (Return lists', w') => import_loop after lists' w'
    | (Raise e, w') => (Raise e, w')
    end.
Proof.
  revert lists w. induction before as [|user before IH]; intros lists w; simpl; [done|].
  unfold bind. destruct (import_user user lists w) as [[lists'|e] w']; [apply IH|done].
Qed.

Lemma import_loop_one (user : json) (lists : list string * list string) (w : World) :
  import_loop [user] lists w = import_user user lists w.
Proof.
  simpl. unfold bind, ret. by destruct (import_user user lists w) as [[] ?].
Qed.

(** An item that loads has its five fields. *)
Lemma loaded_fields (user : json) :
  load_item user = [] →
  ∃ (firstname lastname user_username user_email : string) (rolenames : list string),
    field user "firstname" = Some (JStr firstname)
    ∧ field user "lastname" = Some (JStr lastname)
    ∧ field user "username" = Some (JStr user_username)
    ∧ field user "email" = Some (JStr user_email)
    ∧ field user "roles" = Some (JList (JStr <$> rolenames))
    ∧ valid_email user_email = true
    ∧ rolenames ≠ [].
Proof.
  intros (d & -> & [f Hf] & [l Hl] & [u Hu] & (e & He & Hvalid) & (rs & Hrs & Hne) & _)%load_item_nil.
  exists f, l, u, e, rs. by split_and!.
Qed.

(** *** The exceptions of the import *)


Lemma resolve_or_unknown (rolenames : list string) (rs : list Role) :
  (∃ found, Forall2 (fun rolename role => role_named rolename rs = Some role) rolenames found)
  ∨ Exists (fun rolename => role_named rolename rs = None) rolenames.
Proof.
  induction rolenames as [|rolename rolenames [[found IH]|IH]].
  - left. by exists [].
  - destruct (role_named rolename rs) as [role|] eqn:Hrole.
    + left. exists (role :: found). by constructor.
    + right. by left.
  - right. by right.
Qed.




(** ** The import *)


(** A batch of one record behind the gate: the loop body between the entry
    and the exit of the application builder. *)
Lemma _import_users_one (user : json) (w : World) :
  load_item user = [] →
  _import_users [user] w
  = let '(r, w') := import_user user ([], []) (with_calls (calls w ++ [Enter]) w) in
    (r, with_calls (calls w' ++ [Exit]) w').
Proof.
  intros Hload. rewrite _import_users_loaded.
  - by rewrite import_loop_one.
  - apply load_nil. by constructor.
Qed.



(** C4, as amended. A record that loads, whose role names all resolve and
    whose email is the email of a user with another username: the loop body
    fails with the exit that names the email, and the users of the store,
    the matched one among them, are as they were; the store has only been
    read. A batch of this one record fails in the same way. *)
Theorem import_refuses_username_change (user : json)
    (user_username user_email : string) (rolenames : list string) (rs : list Role)
    (lists : list string * list string) (w : World) (existing_user : nat) (u : User) :
  load_item user = [] →
  field user "username" = Some (JStr user_username) →
  field user "email" = Some (JStr user_email) →
  field user "roles" = Some (JList (JStr <$> rolenames)) →
  Forall2 (fun rolename role => role_named rolename (all_roles w) = Some role) rolenames rs →
  user_found "" user_email (users w) = Some existing_user →
  users w !! existing_user = Some u →
  username u ≠ user_username →
  ∃ (w' w'' : World) (reads : list call),
    import_user user lists w
    = (Raise (SystemExit (UsernameChangeNotAllowed user_email)), w')
    ∧ users w' = users w
    ∧ users w' !! existing_user = Some u
    ∧ calls w' = calls w ++ reads
    ∧ Forall (fun c => mutating c = false) reads
    ∧ _import_users [user] w
      = (Raise (SystemExit (UsernameChangeNotAllowed user_email)), w'')
    ∧ users w'' = users w.
Proof.
  intros Hload Hu He Hr Hall Hfound Hexisting Hdiffer.
  eexists _, _, ((FindRole <$> rolenames) ++ [FindUser "" user_email]).
  split_and!.
  - by eapply import_user_conflict.
  - done.
  - done.
  - done.
  - apply Forall_app. split; [|by repeat constructor].
    apply Forall_fmap, Forall_true. done.
  - rewrite _import_users_one by done.
    erewrite import_user_conflict by done. done.
  - done.
Qed.

(** C5, as amended. A batch that loads, whose records before record k are
    processed without an exception, and whose record k has a role name that
    does not resolve: [_import_users] fails with the exit for a name of
    record k that is not a role, the users of the store are as the records
    before k left them, and from record k on the store has only been read. *)
Theorem import_stops_at_unknown_role (before : list json) (user : json) (after : list json)
    (rolenames : list string) (lists : list string * list string) (w w1 : World) :
  load (before ++ user :: after) = [] →
  import_loop before ([], []) (with_calls (calls w ++ [Enter]) w) = (Return lists, w1) →
  field user "roles" = Some (JList (JStr <$> rolenames)) →
  Exists (fun rolename => role_named rolename (all_roles w) = None) rolenames →
  ∃ (bad : string) (w' : World) (reads : list call),
    bad ∈ rolenames
    ∧ role_named bad (all_roles w) = None
    ∧ _import_users (before ++ user :: after) w
      = (Raise (SystemExit (NotAValidRole bad (all_roles w))), w')
    ∧ users w' = users w1
    ∧ calls w' = calls w1 ++ reads ++ [Exit]
    ∧ Forall (fun c => mutating c = false) reads.
Proof.
  intros Hload Hbefore Hr Hex.
  assert (all_roles w1 = all_roles w) as Hsame.
  { pose proof (keeps_roles_import_loop before ([], []) (with_calls (calls w ++ [Enter]) w)) as Hk.
    by rewrite Hbefore in Hk. }
  rewrite <- Hsame in Hex.
  destruct (import_user_unknown_role user rolenames Hr lists w1 Hex)
    as (good & bad & [rest Hsplit] & Hbad & Hrun).
  exists bad. eexists _, ((FindRole <$> good) ++ [FindRole bad; GetAllRoles]). split_and!.
  - rewrite Hsplit, !elem_of_app, list_elem_of_singleton. auto.
  - by rewrite <- Hsame.
  - rewrite _import_users_loaded by done.
    rewrite import_loop_app, Hbefore. simpl. unfold bind. rewrite Hrun.
    by rewrite Hsame.
  - done.
  - simpl. by rewrite <- !app_assoc.
  - apply Forall_app. split; [|by repeat constructor].
    apply Forall_fmap, Forall_true. done.
Qed.

(** C6, as amended. An item loads exactly when it is an object whose
    firstname, lastname and username are strings, whose email is a string
    the email validator takes, whose roles are a list of strings with at
    least one in it, whose id, if it has one, is something [int] converts,
    and which has no other key. The three names may be empty: an item that
    loads still loads when one of them is replaced by the empty string. *)
Theorem schema_accepts_item (data : json) :
  (load_item data = []
   ↔ ∃ d, data = JDict d
        ∧ (∃ s, d !! "firstname" = Some (JStr s))
        ∧ (∃ s, d !! "lastname" = Some (JStr s))
        ∧ (∃ s, d !! "username" = Some (JStr s))
        ∧ (∃ s, d !! "email" = Some (JStr s) ∧ valid_email s = true)
        ∧ (∃ rs : list string, d !! "roles" = Some (JList (JStr <$> rs)) ∧ rs ≠ [])
        ∧ (∀ value, d !! "id" = Some value → int_like value)
        ∧ (∀ key, is_Some (d !! key)
                  → key ∈ ["id"; "firstname"; "lastname"; "username"; "email"; "roles"]))
  ∧ (∀ d key, data = JDict d → key ∈ ["firstname"; "lastname"; "username"] →
              load_item data = [] → load_item (JDict (<[key := JStr ""]> d)) = []).
Proof.
  split; [apply load_item_nil|].
  intros d key -> Hkey Hload.
  apply load_item_nil in Hload
    as (? & [= <-] & Hfirst & Hlast & Huser & Hemail & Hroles & Hid & Hkeys).
  apply load_item_nil. exists (<[key := JStr ""]> d).
  assert (key = "firstname" ∨ key = "lastname" ∨ key = "username") as Hcases.
  { repeat (apply elem_of_cons in Hkey as [->|Hkey]); auto. by apply elem_of_nil in Hkey. }
  clear Hkey.
  split; [done|].
  destruct Hfirst as [first Hfirst], Hlast as [last Hlast], Huser as [usr Huser],
    Hemail as (em & Hemail & Hvalid), Hroles as (rs & Hroles & Hne).
  assert (∀ key', is_Some (<[key := JStr ""]> d !! key')
                  → key' ∈ ["id"; "firstname"; "lastname"; "username"; "email"; "roles"])
    as Hkeys'.
  { intros key' [value Hvalue]. destruct (decide (key = key')) as [<-|Hne'].
    - destruct Hcases as [->|[->| ->]]; apply (bool_decide_unpack _); by vm_compute.
    - rewrite lookup_insert_ne in Hvalue by done. apply Hkeys. by exists value. }
  destruct Hcases as [->|[->| ->]]; simplify_map_eq; split_and!; eauto.
Qed.

(** ** The single-user commands *)

(** Running a command on a world: the steps of the monad and the calls on
    the store are unfolded, and what is known of the store is used where a
    step reads it. *)
Ltac run_command :=
  unfold with_appbuilder, update_user, del_register_user, reset_password, bind, called,
    find_role, find_user, get_all_roles, getattr, setattr, print, raise, ret;
  simpl.

Ltac same_world :=
  unfold with_calls, with_users, with_stdout, with_tty; simpl;
  rewrite <- ?app_assoc; simpl; try done.

(** An argument is supplied when it is truthy. *)
Definition supplied (arg : string) : Prop := truthy arg = true.

Lemma not_supplied (arg : string) : ¬ supplied arg ↔ truthy arg = false.
Proof. unfold supplied. by destruct (truthy arg). Qed.

(** [_find_user] with exactly one of the two keys, which finds a user. *)
Lemma _find_user_found (args : Namespace) (w : World) (user : nat) :
  xorb (truthy (arg_username args)) (truthy (arg_email args)) = true →
  user_found (arg_username args) (arg_email args) (users w) = Some user →
  _find_user args w
  = (Return user,
     with_calls (calls w ++ [Enter; FindUser (arg_username args) (arg_email args); Exit]) w).
Proof.
  intros Hone Hfound. unfold _find_user.
  destruct (truthy (arg_username args)), (truthy (arg_email args)); try done.
  all: simpl; unfold with_appbuilder, bind, called, find_user, ret; simpl.
  all: rewrite Hfound; simpl; by rewrite <- !app_assoc.
Qed.

(** [_find_user] without a key, with both keys, and with one key that finds
    no user. *)
Lemma _find_user_fails (args : Namespace) (w : World) :
  (¬ supplied (arg_username args) → ¬ supplied (arg_email args) →
   _find_user args w = (Raise (SystemExit MissingArgs), w))
  ∧ (supplied (arg_username args) → supplied (arg_email args) →
     _find_user args w = (Raise (SystemExit ConflictingArgs), w))
  ∧ (xorb (truthy (arg_username args)) (truthy (arg_email args)) = true →
     user_found (arg_username args) (arg_email args) (users w) = None →
     _find_user args w
     = (Raise (SystemExit (UserDoesNotExist
                 (if truthy (arg_username args) then arg_username args else arg_email args))),
        with_calls (calls w ++ [Enter; FindUser (arg_username args) (arg_email args); Exit]) w)).
Proof.
  unfold _find_user. split_and!.
  - intros ->%not_supplied ->%not_supplied. done.
  - unfold supplied. intros -> ->. done.
  - intros Hone Hnone.
    destruct (truthy (arg_username args)), (truthy (arg_email args)); try done.
    all: simpl; unfold with_appbuilder, bind, called, find_user, raise; simpl.
    all: rewrite Hnone; simpl; by rewrite <- !app_assoc.
Qed.

(** C7. The user that the arguments name is found, and the role name
    resolves. To add the role fails when the user has it, with the exit for
    a member, and otherwise appends this one role to the roles of the user
    and asks the store to update the user. To remove the role fails when
    the user does not have it, with the exit for a non-member, and otherwise
    takes it out of the roles of the user and asks the store to update the
    user. Where the command fails, the users of the store are as they were
    and the store has only been read. *)
Theorem manage_role_membership (args : Namespace) (w : World) (user : nat) (u : User)
    (role : Role) :
  xorb (truthy (arg_username args)) (truthy (arg_email args)) = true →
  user_found (arg_username args) (arg_email args) (users w) = Some user →
  users w !! user = Some u →
  role_named (arg_role args) (all_roles w) = Some role →
  let found := [Enter; FindUser (arg_username args) (arg_email args); Exit;
                Enter; FindRole (arg_role args)] in
  let changed (rs : list Role) (printed : line) :=
    mkWorld (<[user := set_roles rs u]> (users w)) (all_roles w)
            (calls w ++ found ++ [UpdateUser (set_roles rs u); Exit])
            (stdout w ++ [printed]) (tty w) (random_choices w) in
  add_role args w
  = (if bool_decide (role ∈ roles u)
     then (Raise (SystemExit (AlreadyAMember (username u) (arg_role args))),
           with_calls (calls w ++ found ++ [Exit]) w)
     else (Return tt,
           changed (roles u ++ [role]) (AddedToRole (username u) (arg_role args))))
  ∧ remove_role args w
    = (if bool_decide (role ∉ roles u)
       then (Raise (SystemExit (NotAMember (username u) (arg_role args))),
             with_calls (calls w ++ found ++ [Exit]) w)
       else (Return tt,
             changed (filter (fun r => r ≠ role) (roles u))
                     (RemovedFromRole (username u) (arg_role args))))
  ∧ role ∉ filter (fun r => r ≠ role) (roles u).
Proof.
  intros Hone Hfound Hu Hrole found changed.
  assert (user < length (users w))%nat as Hlt by (by eapply lookup_lt_Some).
  split_and!.
  - unfold add_role, users_manage_role.
    unfold bind at 1. rewrite (_find_user_found args w user) by done.
    run_command. rewrite Hrole. simpl. repeat (rewrite Hu; simpl).
    case_bool_decide; simpl.
    + same_world.
    + rewrite Hu. simpl. rewrite list_lookup_insert_eq by done.
      subst changed found. same_world.
  - unfold remove_role, users_manage_role.
    unfold bind at 1. rewrite (_find_user_found args w user) by done.
    run_command. rewrite Hrole. simpl. repeat (rewrite Hu; simpl).
    case_bool_decide; simpl.
    + same_world.
    + rewrite Hu. simpl. rewrite list_lookup_insert_eq by done.
      subst changed found. same_world.
  - rewrite list_elem_of_filter. by intros [? _].
Qed.

(** C8. The user that the arguments name is found. [users_delete] empties
    the roles of the user and then asks the store to delete the user, with
    the roles already empty. When the store answers that it failed, the
    command fails with the exit for a failed deletion and does nothing
    about the roles: the user is still in the store, at its place, with no
    role. When the store deletes, the user is gone. *)
Theorem delete_clears_roles_first (args : Namespace) (w : World) (user : nat) (u : User) :
  xorb (truthy (arg_username args)) (truthy (arg_email args)) = true →
  user_found (arg_username args) (arg_email args) (users w) = Some user →
  users w !! user = Some u →
  let cleared := <[user := set_roles [] u]> (users w) in
  let request := DelRegisterUser (set_roles [] u) in
  let asked := calls w ++ [Enter; FindUser (arg_username args) (arg_email args); Exit;
                           Enter; request; Exit] in
  users_delete args w
  = (if store_refuses request cleared
     then (Raise (SystemExit FailedToDeleteUser),
           mkWorld cleared (all_roles w) asked (stdout w) (tty w) (random_choices w))
     else (Return tt,
           mkWorld (delete user cleared) (all_roles w) asked
                   (stdout w ++ [UserDeleted (username u)]) (tty w) (random_choices w)))
  ∧ cleared !! user = Some (set_roles [] u)
  ∧ roles (set_roles [] u) = []
  ∧ length (delete user cleared) = pred (length (users w)).
Proof.
  intros Hone Hfound Hu cleared request asked.
  assert (user < length (users w))%nat as Hlt by (by eapply lookup_lt_Some).
  split_and!.
  - unfold users_delete.
    unfold bind at 1. rewrite (_find_user_found args w user) by done.
    run_command. rewrite Hu. simpl.
    repeat (rewrite list_lookup_insert_eq by done; simpl).
    fold cleared. fold request.
    destruct (store_refuses request cleared); simpl; subst asked; same_world.
  - subst cleared. by rewrite list_lookup_insert_eq.
  - done.
  - subst cleared. rewrite length_delete, length_insert; [lia|].
    by rewrite list_lookup_insert_eq.
Qed.

(** [_create_password] reads the console and nothing else. *)
Lemma _create_password_frame (args : Namespace) (w : World) :
  let '(_, w') := _create_password args w in
  users w' = users w ∧ all_roles w' = all_roles w ∧ calls w' = calls w
  ∧ stdout w' = stdout w.
Proof.
  unfold _create_password, bind, getpass, raise, ret.
  destruct (arg_use_random_password args); [done|].
  destruct (truthy (arg_password args)); [done|].
  destruct (tty w) as [|pw [|confirmation rest]]; simpl; try done.
  by destruct (negb _).
Qed.

(** C9, as amended. The username of the request is the username of a user.
    The role is looked up first: when it is not a role, [users_create]
    fails with the exit for an invalid role, and no user has been looked
    up. When it is a role the password is made next, and an exception of
    that step (the two passwords typed do not match, or the console ends)
    is the outcome of the command. When the password has been made, the
    command finds the user, prints that it exists and returns, with the
    users of the store as they were and nothing asked of the store but the
    two lookups. *)
Theorem create_existing_username (args : Namespace) (w : World) (existing : nat) :
  user_found (arg_username args) "" (users w) = Some existing →
  users_create args w
  = match role_named (arg_role args) (all_roles w) with
    | None =>
        (Raise (SystemExit (NotAValidRole (arg_role args) (all_roles w))),
         with_calls (calls w ++ [Enter; FindRole (arg_role args); GetAllRoles; Exit]) w)
    | Some role =>
        match _create_password args w with
        | (Raise e, w') =>
            (Raise e,
             with_calls (calls w ++ [Enter; FindRole (arg_role args); Exit]) w')
        | (Return pw, w') =>
            (Return tt,
             mkWorld (users w) (all_roles w)
                     (calls w ++ [Enter; FindRole (arg_role args);
                                  FindUser (arg_username args) ""; Exit])
                     (stdout w ++ [AlreadyExist (arg_username args)])
                     (tty w') (random_choices w'))
        end
    end.
Proof.
  intros Hexisting. unfold users_create, _create_password, getpass. run_command.
  destruct (role_named (arg_role args) (all_roles w)) as [role|]; simpl; [|same_world].
  destruct (arg_use_random_password args); simpl.
  { rewrite Hexisting. same_world. }
  destruct (truthy (arg_password args)); simpl.
  { rewrite Hexisting. same_world. }
  destruct (tty w) as [|pw [|confirmation rest]]; simpl; [same_world..|].
  destruct (negb (pw =? confirmation)%string); simpl; [same_world|].
  rewrite Hexisting. same_world.
Qed.

(** C10. The commands that look one user up ([users_delete],
    [user_reset_password], [add_role], [remove_role]) start with
    [_find_user]. Without a username and without an email, and with both,
    the command fails and the world is as it was: the application builder
    has not been entered. With one of the two that finds no user, the
    command fails with the exit for a user that does not exist, naming the
    key given, after the one lookup and nothing else. *)
Theorem lookup_needs_exactly_one_key (command : Namespace → M unit) (args : Namespace)
    (w : World) :
  command ∈ [users_delete; user_reset_password; add_role; remove_role] →
  (¬ supplied (arg_username args) → ¬ supplied (arg_email args) →
   command args w = (Raise (SystemExit MissingArgs), w))
  ∧ (supplied (arg_username args) → supplied (arg_email args) →
     command args w = (Raise (SystemExit ConflictingArgs), w))
  ∧ (xorb (truthy (arg_username args)) (truthy (arg_email args)) = true →
     user_found (arg_username args) (arg_email args) (users w) = None →
     command args w
     = (Raise (SystemExit (UserDoesNotExist
                 (if truthy (arg_username args) then arg_username args else arg_email args))),
        with_calls (calls w ++ [Enter; FindUser (arg_username args) (arg_email args); Exit]) w)).
Proof.
  intros Hcommand.
  destruct (_find_user_fails args w) as (Hmissing & Hconflicting & Hnobody).
  assert (∀ (rest : nat → M unit) e w',
            _find_user args w = (Raise e, w') →
            (user <- _find_user args ;; rest user) w = (Raise e, w')) as Hstop.
  { intros rest e w' Hfind. unfold bind. by rewrite Hfind. }
  repeat (apply elem_of_cons in Hcommand as [->|Hcommand]);
    [| | | |by apply elem_of_nil in Hcommand].
  all: unfold add_role, remove_role, users_delete, user_reset_password, users_manage_role.
  all: split_and!; intros; apply Hstop; auto.
Qed.

(** ** More on the single-user commands *)

(** A user whose key is the key of no other user is the user the key finds. *)
Lemma lookup_user_unique (attr : User → string) (us : list User) (i : nat) (u : User) :
  NoDup (attr <$> us) → us !! i = Some u → lookup_user attr (attr u) us = Some i.
Proof.
  intros Hnodup Hi. unfold lookup_user.
  assert (list_find (fun x => attr x = attr u) us = Some (i, u)) as ->; [|done].
  apply list_find_Some. split_and!; [done..|].
  intros j y Hj Hlt Hsame.
  assert (j = i); [|lia].
  eapply NoDup_lookup; [exact Hnodup|..].
  - by rewrite list_lookup_fmap, Hj.
  - by rewrite list_lookup_fmap, Hi, Hsame.
Qed.

(** Assigning to a user an object with the same key changes nothing to
    what the key finds. *)
Lemma lookup_user_insert (attr : User → string) (key : string) (us : list User) (i : nat)
    (u u' : User) :
  us !! i = Some u → attr u' = attr u →
  lookup_user attr key (<[i := u']> us) = lookup_user attr key us.
Proof.
  unfold lookup_user. revert i.
  induction us as [|x us IH]; intros i Hi Hattr; [done|].
  destruct i as [|i]; simpl in *.
  - injection Hi as ->. rewrite Hattr. by case_decide.
  - case_decide; [done|].
    specialize (IH i Hi Hattr).
    destruct (list_find _ (<[i:=u']> us)) as [[]|], (list_find _ us) as [[]|];
      simpl in *; congruence.
Qed.

Lemma user_found_insert (user_name user_email : string) (us : list User) (i : nat)
    (u u' : User) :
  us !! i = Some u → username u' = username u → email u' = email u →
  user_found user_name user_email (<[i := u']> us) = user_found user_name user_email us.
Proof.
  intros Hi Husername Hemail. unfold user_found.
  by rewrite !(lookup_user_insert _ _ us i u u').
Qed.

(** [users_manage_role] on a user that is found and a role that resolves. *)
Lemma users_manage_role_run (args : Namespace) (remove : bool) (w : World) (user : nat)
    (u : User) (role : Role) :
  xorb (truthy (arg_username args)) (truthy (arg_email args)) = true →
  user_found (arg_username args) (arg_email args) (users w) = Some user →
  users w !! user = Some u →
  role_named (arg_role args) (all_roles w) = Some role →
  let found := [Enter; FindUser (arg_username args) (arg_email args); Exit;
                Enter; FindRole (arg_role args)] in
  let changed (rs : list Role) (printed : line) :=
    mkWorld (<[user := set_roles rs u]> (users w)) (all_roles w)
            (calls w ++ found ++ [UpdateUser (set_roles rs u); Exit])
            (stdout w ++ [printed]) (tty w) (random_choices w) in
  users_manage_role args remove w
  = if remove then
      if bool_decide (role ∉ roles u)
      then (Raise (SystemExit (NotAMember (username u) (arg_role args))),
            with_calls (calls w ++ found ++ [Exit]) w)
      else (Return tt,
            changed (filter (fun r => r ≠ role) (roles u))
                    (RemovedFromRole (username u) (arg_role args)))
    else
      if bool_decide (role ∈ roles u)
      then (Raise (SystemExit (AlreadyAMember (username u) (arg_role args))),
            with_calls (calls w ++ found ++ [Exit]) w)
      else (Return tt,
            changed (roles u ++ [role]) (AddedToRole (username u) (arg_role args))).
Proof.
  intros Hone Hfound Hu Hrole found changed.
  assert (user < length (users w))%nat as Hlt by (by eapply lookup_lt_Some).
  unfold users_manage_role.
  unfold bind at 1. rewrite (_find_user_found args w user) by done.
  run_command. rewrite Hrole. simpl. repeat (rewrite Hu; simpl).
  destruct remove; case_bool_decide; simpl; try same_world.
  all: rewrite Hu; simpl; rewrite list_lookup_insert_eq by done.
  all: subst changed found; same_world.
Qed.

(** X1. [users_manage_role] on a user that is found and a role name that is
    not a role: the command exits over the role, whether it adds or
    removes, and the store has only been read. *)
Lemma manage_unknown_role (args : Namespace) (remove : bool) (w : World) (user : nat) :
  xorb (truthy (arg_username args)) (truthy (arg_email args)) = true →
  user_found (arg_username args) (arg_email args) (users w) = Some user →
  role_named (arg_role args) (all_roles w) = None →
  users_manage_role args remove w
  = (Raise (SystemExit (NotAValidRole (arg_role args) (all_roles w))),
     with_calls (calls w ++ [Enter; FindUser (arg_username args) (arg_email args); Exit;
                             Enter; FindRole (arg_role args); GetAllRoles; Exit]) w).
Proof.
  intros Hone Hfound Hrole. unfold users_manage_role.
  unfold bind at 1. rewrite (_find_user_found args w user) by done.
  run_command. rewrite Hrole. same_world.
Qed.

(** X2. A role added twice: the second command exits over the membership, and
    the users are as the first command left them. *)
Lemma add_role_twice (args : Namespace) (w : World) (user : nat) (u : User) (role : Role) :
  xorb (truthy (arg_username args)) (truthy (arg_email args)) = true →
  user_found (arg_username args) (arg_email args) (users w) = Some user →
  users w !! user = Some u →
  role_named (arg_role args) (all_roles w) = Some role →
  role ∉ roles u →
  ∃ w1 w2,
    add_role args w = (Return tt, w1)
    ∧ add_role args w1
      = (Raise (SystemExit (AlreadyAMember (username u) (arg_role args))), w2)
    ∧ users w2 = users w1
    ∧ users w1 = <[user := set_roles (roles u ++ [role]) u]> (users w).
Proof.
  intros Hone Hfound Hu Hrole Hnot.
  assert (user < length (users w))%nat as Hlt by (by eapply lookup_lt_Some).
  unfold add_role.
  rewrite (users_manage_role_run args false w user u role) by done.
  rewrite bool_decide_eq_false_2 by done.
  eexists _, _. split; [reflexivity|].
  erewrite (users_manage_role_run args false _ user (set_roles (roles u ++ [role]) u) role).
  - rewrite bool_decide_eq_true_2; [by split_and!|].
    simpl. apply elem_of_app. right. by left.
  - done.
  - simpl. by rewrite (user_found_insert _ _ _ user u).
  - simpl. by rewrite list_lookup_insert_eq.
  - done.
Qed.

(** X3. A role added and then removed: both commands return, and the users of
    the store are as they were before the two. *)
Lemma add_then_remove_role (args : Namespace) (w : World) (user : nat) (u : User)
    (role : Role) :
  xorb (truthy (arg_username args)) (truthy (arg_email args)) = true →
  user_found (arg_username args) (arg_email args) (users w) = Some user →
  users w !! user = Some u →
  role_named (arg_role args) (all_roles w) = Some role →
  role ∉ roles u →
  ∃ w1 w2,
    add_role args w = (Return tt, w1)
    ∧ remove_role args w1 = (Return tt, w2)
    ∧ users w2 = users w.
Proof.
  intros Hone Hfound Hu Hrole Hnot.
  assert (user < length (users w))%nat as Hlt by (by eapply lookup_lt_Some).
  unfold add_role, remove_role.
  rewrite (users_manage_role_run args false w user u role) by done.
  rewrite bool_decide_eq_false_2 by done.
  eexists _, _. split; [reflexivity|].
  erewrite (users_manage_role_run args true _ user (set_roles (roles u ++ [role]) u) role).
  - rewrite bool_decide_eq_false_2.
    + split; [reflexivity|]. simpl. rewrite list_insert_insert_eq.
      rewrite filter_app, filter_cons_False, filter_nil, app_nil_r by (intros Hne; by apply Hne).
      assert (filter (fun r => r ≠ role) (roles u) = roles u) as ->.
      { clear -Hnot. induction (roles u) as [|r rs IH]; [done|].
        apply not_elem_of_cons in Hnot as [Hne Hrest].
        rewrite filter_cons_True by done. by rewrite IH. }
      replace (set_roles (roles u) (set_roles (roles u ++ [role]) u)) with u
        by (by destruct u).
      by apply list_insert_id.
    + simpl. intros Hnotin. apply Hnotin, elem_of_app. right. by left.
  - done.
  - simpl. by rewrite (user_found_insert _ _ _ user u).
  - simpl. by rewrite list_lookup_insert_eq.
  - done.
Qed.

(** X4. A role removed twice: the second command exits over the membership,
    and the users are as the first command left them. *)
Lemma remove_role_twice (args : Namespace) (w : World) (user : nat) (u : User)
    (role : Role) :
  xorb (truthy (arg_username args)) (truthy (arg_email args)) = true →
  user_found (arg_username args) (arg_email args) (users w) = Some user →
  users w !! user = Some u →
  role_named (arg_role args) (all_roles w) = Some role →
  role ∈ roles u →
  ∃ w1 w2,
    remove_role args w = (Return tt, w1)
    ∧ remove_role args w1
      = (Raise (SystemExit (NotAMember (username u) (arg_role args))), w2)
    ∧ users w2 = users w1
    ∧ users w1 = <[user := set_roles (filter (fun r => r ≠ role) (roles u)) u]> (users w).
Proof.
  intros Hone Hfound Hu Hrole Hin.
  assert (user < length (users w))%nat as Hlt by (by eapply lookup_lt_Some).
  unfold remove_role.
  rewrite (users_manage_role_run args true w user u role) by done.
  rewrite bool_decide_eq_false_2 by (by intros Hnot).
  eexists _, _. split; [reflexivity|].
  erewrite (users_manage_role_run args true _ user
              (set_roles (filter (fun r => r ≠ role) (roles u)) u) role).
  - rewrite bool_decide_eq_true_2; [by split_and!|].
    simpl. rewrite list_elem_of_filter. by intros [? _].
  - done.
  - simpl. by rewrite (user_found_insert _ _ _ user u).
  - simpl. by rewrite list_lookup_insert_eq.
  - done.
Qed.

(** [_create_password] looks at the arguments, the console and the random
    choices only: the calls made so far do not matter to it, and it leaves
    them as they are. *)
Lemma _create_password_calls (args : Namespace) (cs : list call) (w : World) :
  _create_password args (with_calls cs w)
  = let '(o, w') := _create_password args w in (o, with_calls cs w').
Proof.
  unfold _create_password, bind, getpass, raise, ret.
  destruct (arg_use_random_password args); [done|].
  destruct (truthy (arg_password args)); [done|].
  destruct w as [us rs cs' out [|pw [|confirmation rest]] rnd]; simpl; try done.
  by destruct (negb _).
Qed.

(** [users_create], step by step: the role, the password, the username,
    and then what the store answers. *)
Lemma users_create_run (args : Namespace) (w : World) :
  users_create args w
  = match role_named (arg_role args) (all_roles w) with
    | None =>
        (Raise (SystemExit (NotAValidRole (arg_role args) (all_roles w))),
         with_calls (calls w ++ [Enter; FindRole (arg_role args); GetAllRoles; Exit]) w)
    | Some role =>
        match _create_password args w with
        | (Raise e, w') =>
            (Raise e, with_calls (calls w ++ [Enter; FindRole (arg_role args); Exit]) w')
        | (Return pw, w') =>
            let looked := calls w ++ [Enter; FindRole (arg_role args);
                                      FindUser (arg_username args) ""] in
            let request := AddUser (arg_username args) (arg_firstname args)
                                   (arg_lastname args) (arg_email args) [role] pw in
            match user_found (arg_username args) "" (users w) with
            | Some _ =>
                (Return tt,
                 mkWorld (users w) (all_roles w) (looked ++ [Exit])
                         (stdout w ++ [AlreadyExist (arg_username args)])
                         (tty w') (random_choices w'))
            | None =>
                match lookup_user username (arg_username args) (users w),
                      lookup_user email (arg_email args) (users w) with
                | None, None =>
                    (Return tt,
                     mkWorld (users w ++ [mkUser (fresh_id (users w)) (arg_username args)
                                                 (arg_email args) (arg_firstname args)
                                                 (arg_lastname args) [role] pw])
                             (all_roles w) (looked ++ [request; Exit])
                             (stdout w ++ [UserCreated (arg_username args) (arg_role args)])
                             (tty w') (random_choices w'))
                | _, _ =>
                    (Raise (SystemExit FailedToCreateUser),
                     mkWorld (users w) (all_roles w) (looked ++ [request; Exit])
                             (stdout w) (tty w') (random_choices w'))
                end
            end
        end
    end.
Proof.
  unfold users_create. run_command.
  destruct (role_named (arg_role args) (all_roles w)) as [role|]; [|same_world].
  rewrite !_create_password_calls.
  pose proof (_create_password_frame args w) as Hframe.
  destruct (_create_password args w) as [[pw|e] w']; [|same_world].
  destruct Hframe as (Husers & Hroles & Hcalls & Hstdout).
  destruct w as [us rs cs out keys rnd], w' as [us' rs' cs' out' keys' rnd'].
  simpl in Husers, Hroles, Hcalls, Hstdout. subst us' rs' cs' out'.
  unfold add_user. simpl.
  destruct (user_found (arg_username args) "" us); simpl; [same_world|].
  destruct (lookup_user username (arg_username args) us),
    (lookup_user email (arg_email args) us); simpl; same_world.
Qed.

(** X6. A request with a role name that is not a role: [users_create] exits
    over the role whatever the rest of the request; no password has been
    asked for, no user looked up, and the store is as it was. *)
Lemma create_unknown_role (args : Namespace) (w : World) :
  role_named (arg_role args) (all_roles w) = None →
  users_create args w
  = (Raise (SystemExit (NotAValidRole (arg_role args) (all_roles w))),
     with_calls (calls w ++ [Enter; FindRole (arg_role args); GetAllRoles; Exit]) w).
Proof. intros Hrole. by rewrite users_create_run, Hrole. Qed.

(** X7. A request with a role, whose password is made, and whose username and
    email are those of no user: the store has one more user, with the
    fields of the request, the one role and the password, and the users it
    had are as they were. *)
Lemma create_adds_user (args : Namespace) (w w' : World) (role : Role) (pw : string) :
  role_named (arg_role args) (all_roles w) = Some role →
  _create_password args w = (Return pw, w') →
  lookup_user username (arg_username args) (users w) = None →
  lookup_user email (arg_email args) (users w) = None →
  ∃ w'' new,
    users_create args w = (Return tt, w'')
    ∧ users w'' = users w ++ [new]
    ∧ username new = arg_username args ∧ email new = arg_email args
    ∧ first_name new = arg_firstname args ∧ last_name new = arg_lastname args
    ∧ roles new = [role] ∧ password new = pw
    ∧ stdout w'' = stdout w ++ [UserCreated (arg_username args) (arg_role args)].
Proof.
  intros Hrole Hpw Hname Hmail.
  rewrite users_create_run, Hrole, Hpw, Hname, Hmail.
  assert (user_found (arg_username args) "" (users w) = None) as ->.
  { unfold user_found. rewrite Hname. by destruct (truthy _). }
  eexists _, _. by split_and!.
Qed.

(** X8. Whatever the request and the outcome, [users_create] leaves the users
    of the store as they were, but for one user it may add at the end. *)
Lemma create_keeps_users (args : Namespace) (w : World) :
  users (users_create args w).2 = users w
  ∨ ∃ new, users (users_create args w).2 = users w ++ [new].
Proof.
  rewrite users_create_run.
  pose proof (_create_password_frame args w) as Hframe.
  destruct (role_named (arg_role args) (all_roles w)); [|by left].
  destruct (_create_password args w) as [[pw|e] w'];
    [|left; simpl; by destruct Hframe].
  repeat case_match; simpl; eauto.
Qed.

(** A user whose id is the id of no other user is the user the id finds. *)
Lemma find_by_id_unique (us : list User) (i : nat) (u : User) :
  NoDup (id <$> us) → us !! i = Some u →
  list_find (fun x => id x = id u) us = Some (i, u).
Proof.
  intros Hnodup Hi. apply list_find_Some. split_and!; [done..|].
  intros j y Hj Hlt Hsame.
  assert (j = i); [|lia].
  eapply NoDup_lookup; [exact Hnodup|..].
  - by rewrite list_lookup_fmap, Hj.
  - by rewrite list_lookup_fmap, Hi, Hsame.
Qed.

(** X9. [user_reset_password] on a user that is found, in a store whose ids
    are distinct. An exception of the password step ends the command, and
    the store has not been asked to reset anything. With a password made,
    the store is asked to reset the password of the id of the user found:
    when it does, this user has the new password and is otherwise as it
    was, as are the other users; when it fails, the command exits and the
    users are as they were. *)
Lemma reset_password_of_found_user (args : Namespace) (w : World) (user : nat) (u : User) :
  xorb (truthy (arg_username args)) (truthy (arg_email args)) = true →
  user_found (arg_username args) (arg_email args) (users w) = Some user →
  users w !! user = Some u →
  NoDup (id <$> users w) →
  let found := calls w ++ [Enter; FindUser (arg_username args) (arg_email args); Exit] in
  user_reset_password args w
  = match _create_password args w with
    | (Raise e, w') => (Raise e, with_calls found w')
    | (Return pw, w') =>
        let asked := found ++ [Enter; ResetPassword (id u) pw; Exit] in
        if store_refuses (ResetPassword (id u) pw) (users w)
        then (Raise (SystemExit FailedToResetPassword),
              mkWorld (users w) (all_roles w) asked (stdout w) (tty w') (random_choices w'))
        else (Return tt,
              mkWorld (<[user := set_password pw u]> (users w)) (all_roles w) asked
                      (stdout w ++ [PasswordReset (username u)])
                      (tty w') (random_choices w'))
    end.
Proof.
  intros Hone Hfound Hu Hnodup found.
  assert (user < length (users w))%nat as Hlt by (by eapply lookup_lt_Some).
  unfold user_reset_password.
  unfold bind at 1. rewrite (_find_user_found args w user) by done.
  unfold bind at 1. rewrite _create_password_calls.
  pose proof (_create_password_frame args w) as Hframe.
  destruct (_create_password args w) as [[pw|e] w']; [|done].
  destruct Hframe as (Husers & Hroles & Hcalls & Hstdout).
  destruct w as [us rs cs out keys rnd], w' as [us' rs' cs' out' keys' rnd'].
  simpl in Husers, Hroles, Hcalls, Hstdout, Hu, Hnodup, Hlt. subst us' rs' cs' out'.
  run_command. rewrite Hu. simpl.
  rewrite (find_by_id_unique us user u) by done.
  destruct (store_refuses (ResetPassword (id u) pw) us); simpl; [subst found; same_world|].
  rewrite list_lookup_insert_eq by done. subst found. same_world.
Qed.

(** Deleting at a place where something has been assigned deletes what was
    assigned. *)
Lemma delete_insert_same {A} (l : list A) (i : nat) (x : A) :
  delete i (<[i := x]> l) = delete i l.
Proof.
  revert i. induction l as [|y l IH]; intros [|i]; simpl; try done.
  by rewrite IH.
Qed.

(** Once the only user with a key is deleted, the key finds no user. *)
Lemma lookup_user_delete (attr : User → string) (us : list User) (i : nat) (u : User) :
  NoDup (attr <$> us) → us !! i = Some u →
  lookup_user attr (attr u) (delete i us) = None.
Proof.
  intros Hnodup Hi. unfold lookup_user.
  assert (list_find (fun x => attr x = attr u) (delete i us) = None) as ->; [|done].
  apply list_find_None, Forall_lookup. intros j x Hj Hsame.
  assert (∃ k, k ≠ i ∧ us !! k = Some x) as (k & Hne & Hk).
  { destruct (decide (j < i)%nat).
    - exists j. rewrite list_lookup_delete_lt in Hj by done. split; [lia|done].
    - exists (S j). rewrite list_lookup_delete_ge in Hj by lia. split; [lia|done]. }
  apply Hne. eapply NoDup_lookup; [exact Hnodup|..].
  - by rewrite list_lookup_fmap, Hk.
  - by rewrite list_lookup_fmap, Hi, Hsame.
Qed.

(** [users_delete] on a user that is found. *)
Lemma users_delete_run (args : Namespace) (w : World) (user : nat) (u : User) :
  xorb (truthy (arg_username args)) (truthy (arg_email args)) = true →
  user_found (arg_username args) (arg_email args) (users w) = Some user →
  users w !! user = Some u →
  let cleared := <[user := set_roles [] u]> (users w) in
  let request := DelRegisterUser (set_roles [] u) in
  let asked := calls w ++ [Enter; FindUser (arg_username args) (arg_email args); Exit;
                           Enter; request; Exit] in
  users_delete args w
  = if store_refuses request cleared
    then (Raise (SystemExit FailedToDeleteUser),
          mkWorld cleared (all_roles w) asked (stdout w) (tty w) (random_choices w))
    else (Return tt,
          mkWorld (delete user (users w)) (all_roles w) asked
                  (stdout w ++ [UserDeleted (username u)]) (tty w) (random_choices w)).
Proof.
  intros Hone Hfound Hu cleared request asked.
  assert (user < length (users w))%nat as Hlt by (by eapply lookup_lt_Some).
  unfold users_delete.
  unfold bind at 1. rewrite (_find_user_found args w user) by done.
  run_command. rewrite Hu. simpl.
  repeat (rewrite list_lookup_insert_eq by done; simpl).
  fold cleared. fold request.
  destruct (store_refuses request cleared); simpl; subst asked; [same_world|].
  subst cleared. rewrite delete_insert_same. same_world.
Qed.

(** X10. A user deleted cannot be found again: in a store whose usernames are
    distinct and whose emails are distinct, once [users_delete] has
    returned, the users are those of before without the user found, in
    their order, and the same arguments find no user. *)
Lemma delete_then_lookup (args : Namespace) (w : World) (user : nat) (u : User) :
  xorb (truthy (arg_username args)) (truthy (arg_email args)) = true →
  user_found (arg_username args) (arg_email args) (users w) = Some user →
  users w !! user = Some u →
  NoDup (username <$> users w) →
  NoDup (email <$> users w) →
  store_refuses (DelRegisterUser (set_roles [] u)) (<[user := set_roles [] u]> (users w))
  = false →
  ∃ w1 w2,
    users_delete args w = (Return tt, w1)
    ∧ users w1 = delete user (users w)
    ∧ _find_user args w1
      = (Raise (SystemExit (UserDoesNotExist
                  (if truthy (arg_username args) then arg_username args
                   else arg_email args))), w2)
    ∧ users w2 = users w1.
Proof.
  intros Hone Hfound Hu Hnames Hmails Hdeletes.
  rewrite (users_delete_run args w user u) by done. rewrite Hdeletes.
  eexists _, _. split; [reflexivity|]. split; [reflexivity|].
  destruct (_find_user_fails args
              (mkWorld (delete user (users w)) (all_roles w)
                 (calls w ++ [Enter; FindUser (arg_username args) (arg_email args); Exit;
                              Enter; DelRegisterUser (set_roles [] u); Exit])
                 (stdout w ++ [UserDeleted (username u)]) (tty w) (random_choices w)))
    as (_ & _ & Hnobody).
  rewrite Hnobody; [done|done|]. simpl.
  unfold user_found in *.
  destruct (truthy (arg_username args)).
  - destruct (lookup_user_Some _ _ _ _ Hfound) as (u' & Hu' & <-).
    assert (u' = u) as -> by congruence. by apply lookup_user_delete.
  - destruct (truthy (arg_email args)); [|done].
    destruct (lookup_user_Some _ _ _ _ Hfound) as (u' & Hu' & <-).
    assert (u' = u) as -> by congruence. by apply lookup_user_delete.
Qed.

(** ** Export and import *)

(** The fields of an exported user. *)
Lemma export_user_fields (u : User) :
  field (export_user u) "id" = Some (JInt (id u))
  ∧ field (export_user u) "username" = Some (JStr (username u))
  ∧ field (export_user u) "email" = Some (JStr (email u))
  ∧ field (export_user u) "firstname" = Some (JStr (first_name u))
  ∧ field (export_user u) "lastname" = Some (JStr (last_name u))
  ∧ field (export_user u) "roles" = Some (JList (JStr <$> (name <$> roles u))).
Proof. by split_and!. Qed.

Lemma export_user_keys (u : User) (key : string) :
  is_Some (field (export_user u) key)
  → key ∈ ["id"; "firstname"; "lastname"; "username"; "email"; "roles"].
Proof.
  intros [value Hvalue]. unfold field, export_user in Hvalue.
  apply elem_of_list_to_map_2 in Hvalue.
  repeat (apply elem_of_cons in Hvalue as [[= -> _]|Hvalue];
          [apply (bool_decide_unpack _); by vm_compute|]).
  by apply elem_of_nil in Hvalue.
Qed.

(** The dictionary exported for a user loads in the schema of the import
    exactly when the email of the user is an address the validator takes
    and the user has a role. *)
Lemma export_user_loads (u : User) :
  load_item (export_user u) = [] ↔ valid_email (email u) = true ∧ roles u ≠ [].
Proof.
  destruct (export_user_fields u) as (Hid & Huser & Hemail & Hfirst & Hlast & Hroles).
  split.
  - intros (d & Hd & _ & _ & _ & (e & He & Hvalid) & (rs & Hrs & Hne) & _)%load_item_nil.
    rewrite Hd in Hemail, Hroles. simpl in Hemail, Hroles.
    rewrite He in Hemail. rewrite Hrs in Hroles.
    injection Hemail as ->. injection Hroles as Hroles.
    split; [done|]. intros Hnone. rewrite Hnone in Hroles. simpl in Hroles.
    by apply fmap_nil_inv in Hroles.
  - intros [Hvalid Hne]. apply load_item_nil. eexists. split; [reflexivity|].
    split_and!; eauto.
    + exists (name <$> roles u). split; [done|]. by destruct (roles u).
    + intros value Hvalue. change (field (export_user u) "id" = Some value) in Hvalue.
      rewrite Hid in Hvalue. by injection Hvalue as <-.
    + exact (export_user_keys u).
Qed.

(** A role of the store is the role its name resolves to. *)
Lemma role_named_elem (r : Role) (rs : list Role) :
  r ∈ rs → role_named (name r) rs = Some r.
Proof.
  intros Hin. unfold role_named.
  destruct (list_find_elem_of (fun x => name x = name r) rs r Hin eq_refl) as [[i x] Hfind].
  rewrite Hfind. simpl. apply list_find_Some in Hfind as (_ & Hname & _).
  destruct x, r. simpl in Hname. by subst.
Qed.

(** A store that can be exported and imported again: the emails of its
    users are distinct, non-empty and taken by the validator, and every
    user has at least one role, all of them roles of the store. *)
Definition exportable (w : World) : Prop :=
  NoDup (email <$> users w)
  ∧ Forall (fun u => valid_email (email u) = true ∧ email u ≠ "" ∧ roles u ≠ []
                     ∧ Forall (fun r => r ∈ all_roles w) (roles u))
           (users w).

Lemma import_loop_cons (user : json) (rest : list json) (lists : list string * list string)
    (w : World) :
  import_loop (user :: rest) lists w
  = match import_user user lists w with
    | (Return lists', w') => import_loop rest lists' w'
    | (Raise e, w') => (Raise e, w')
    end.
Proof. reflexivity. Qed.

Lemma reimport_loop (us : list User) (users_created users_updated : list string)
    (w : World) :
  exportable w → (∀ u, u ∈ us → u ∈ users w) →
  ∃ w',
    import_loop (export_user <$> us) (users_created, users_updated) w
    = (Return (users_created, users_updated ++ (email <$> us)), w')
    ∧ users w' = users w ∧ all_roles w' = all_roles w.
Proof.
  revert users_updated w.
  induction us as [|u us IH]; intros users_updated w Hexp Hin.
  - exists w. simpl. by rewrite app_nil_r.
  - assert (u ∈ users w) as Hu by (apply Hin; left).
    apply list_elem_of_lookup in Hu as [k Hk].
    destruct Hexp as [Hnodup Hall].
    pose proof (Forall_lookup_1 _ _ _ _ Hall Hk) as (Hvalid & Hmail & Hroles & Hknown).
    destruct (export_user_fields u) as (_ & Huser & Hemail & Hfirst & Hlast & Hrolenames).
    assert (user_found "" (email u) (users w) = Some k) as Hfound.
    { unfold user_found. simpl. unfold truthy.
      rewrite (proj2 (String.eqb_neq _ _) Hmail). simpl.
      by apply lookup_user_unique. }
    assert (Forall2 (fun rolename role => role_named rolename (all_roles w) = Some role)
                    (name <$> roles u) (roles u)) as Hresolve.
    { apply Forall2_fmap_l, Forall_Forall2_diag.
      eapply Forall_impl; [exact Hknown|]. intros r. apply role_named_elem. }
    rewrite fmap_cons, import_loop_cons.
    rewrite (import_user_update (export_user u) (first_name u) (last_name u) (username u)
               (email u) (name <$> roles u) Hfirst Hlast Huser Hemail Hrolenames
               users_created users_updated w (roles u) k u Hresolve Hfound Hk eq_refl).
    replace (mkUser (id u) (username u) (email u) (first_name u) (last_name u) (roles u)
                    (password u)) with u by (by destruct u).
    rewrite list_insert_id by done.
    match goal with
    | |- context [import_loop _ _ ?w1] =>
        destruct (IH (users_updated ++ [email u]) w1) as (w' & Hrun & Husers & Hroles')
    end.
    + split; simpl; [exact Hnodup|exact Hall].
    + simpl. intros u' Hu'. apply Hin. by right.
    + exists w'. rewrite Hrun. simpl in Husers, Hroles'.
      by rewrite <- app_assoc.
Qed.

(** X12. Export and import compose: the users of an exportable store are
    exported and the list is imported into the same store. Every email is
    reported as updated, in the order of the store, none as created, and
    the users of the store are as they were. *)
Lemma export_then_import (w : World) :
  exportable w →
  ∃ users_list w1 w2,
    users_export w = (Return users_list, w1)
    ∧ length users_list = length (users w)
    ∧ _import_users users_list w1 = (Return ([], email <$> users w), w2)
    ∧ users w2 = users w.
Proof.
  intros Hexp.
  exists (export_user <$> users w),
         (with_calls (calls w ++ [Enter; GetAllUsers; Exit]) w).
  assert (load (export_user <$> users w) = []) as Hload.
  { apply load_nil, Forall_fmap. destruct Hexp as [_ Hall].
    eapply Forall_impl; [exact Hall|]. intros u (Hvalid & _ & Hroles & _). simpl.
    by apply export_user_loads. }
  destruct (reimport_loop (users w) [] []
              (with_calls (calls (with_calls (calls w ++ [Enter; GetAllUsers; Exit]) w)
                           ++ [Enter])
                 (with_calls (calls w ++ [Enter; GetAllUsers; Exit]) w)))
    as (w' & Hrun & Husers & _); [done..|].
  exists (with_calls (calls w' ++ [Exit]) w'). split_and!.
  - unfold users_export. run_command. same_world.
  - by rewrite length_fmap.
  - rewrite _import_users_loaded by done. by rewrite Hrun.
  - done.
Qed.

(** ** What the import and the role commands leave alone *)

(** The same user, perhaps with other roles and names: the id, the
    username, the email and the password are the same. *)
Definition same_identity (u u' : User) : Prop :=
  id u' = id u ∧ username u' = username u ∧ email u' = email u
  ∧ password u' = password u.

(** The users of before are all there, each at its place and with its
    identity; there may be more users after them. *)
Definition kept (us us' : list User) : Prop :=
  ∃ old more, us' = old ++ more ∧ Forall2 same_identity us old.

Definition keeps_users {A} (m : M A) : Prop := ∀ w, kept (users w) (users (m w).2).

Lemma same_identity_refl (u : User) : same_identity u u.
Proof. by repeat split. Qed.

Lemma same_identity_trans (u u' u'' : User) :
  same_identity u u' → same_identity u' u'' → same_identity u u''.
Proof. unfold same_identity. intros (? & ? & ? & ?) (? & ? & ? & ?). split_and!; congruence. Qed.

Lemma kept_refl (us : list User) : kept us us.
Proof.
  exists us, []. split; [by rewrite app_nil_r|].
  apply Forall_Forall2_diag, Forall_true, same_identity_refl.
Qed.

Lemma kept_trans (us us' us'' : list User) : kept us us' → kept us' us'' → kept us us''.
Proof.
  intros (old & more & -> & Hold) (old' & more' & -> & Hold').
  apply Forall2_app_inv_l in Hold' as (a & b & Ha & Hb & ->).
  exists a, (b ++ more'). split; [by rewrite app_assoc|].
  clear Hb. revert a Ha. induction Hold as [|u x us old Hux _ IH]; intros a Ha.
  - apply Forall2_nil_inv_l in Ha as ->. constructor.
  - apply Forall2_cons_inv_l in Ha as (y & a' & Hxy & Ha' & ->).
    constructor; [by eapply same_identity_trans|by apply IH].
Qed.

Lemma kept_insert (us : list User) (i : nat) (u u' : User) :
  us !! i = Some u → same_identity u u' → kept us (<[i := u']> us).
Proof.
  intros Hi Hsame. exists (<[i := u']> us), []. split; [by rewrite app_nil_r|].
  revert i Hi. induction us as [|x us IH]; intros [|i] Hi; simpl in *; try done.
  - injection Hi as ->. constructor; [done|].
    apply Forall_Forall2_diag, Forall_true, same_identity_refl.
  - constructor; [apply same_identity_refl|by apply IH].
Qed.

Lemma kept_lookup (us us' : list User) (i : nat) (u : User) :
  kept us us' → us !! i = Some u → ∃ u', us' !! i = Some u' ∧ same_identity u u'.
Proof.
  intros (old & more & -> & Hold) Hi.
  destruct (Forall2_lookup_l _ _ _ _ _ Hold Hi) as (u' & Hu' & Hsame).
  exists u'. split; [|done]. by apply lookup_app_l_Some.
Qed.

Lemma kept_length (us us' : list User) : kept us us' → (length us ≤ length us')%nat.
Proof.
  intros (old & more & -> & Hold). rewrite length_app, <- (Forall2_length _ _ _ Hold). lia.
Qed.

Lemma keeps_users_ret {A} (a : A) : keeps_users (ret a).
Proof. intros w. apply kept_refl. Qed.

Lemma keeps_users_raise {A} (e : exn) : keeps_users (@raise A e).
Proof. intros w. apply kept_refl. Qed.

Lemma keeps_users_bind {A B} (m : M A) (k : A → M B) :
  keeps_users m → (∀ a, keeps_users (k a)) → keeps_users (bind m k).
Proof.
  intros Hm Hk w. unfold bind. specialize (Hm w).
  destruct (m w) as [[a|e] w']; simpl in *; [|done].
  eapply kept_trans; [exact Hm|apply Hk].
Qed.

Lemma keeps_users_print (l : line) : keeps_users (print l).
Proof. intros w. apply kept_refl. Qed.

Lemma keeps_users_called (c : call) : keeps_users (called c).
Proof. intros w. apply kept_refl. Qed.

Lemma keeps_users_getattr {A} (user : nat) (attr : User → A) :
  keeps_users (getattr user attr).
Proof. intros w. unfold getattr. case_match; apply kept_refl. Qed.

Lemma keeps_users_setattr (user : nat) (assign : User → User) :
  (∀ u, same_identity u (assign u)) → keeps_users (setattr user assign).
Proof.
  intros Hassign w. unfold setattr.
  destruct (users w !! user) as [u|] eqn:Hu; simpl; [|apply kept_refl].
  by apply (kept_insert _ _ u).
Qed.

Lemma keeps_users_find_role (role : string) : keeps_users (find_role role).
Proof. intros w. apply kept_refl. Qed.

Lemma keeps_users_get_all_roles : keeps_users get_all_roles.
Proof. intros w. apply kept_refl. Qed.

Lemma keeps_users_find_user (user_name user_email : string) :
  keeps_users (find_user user_name user_email).
Proof. intros w. apply kept_refl. Qed.

Lemma keeps_users_add_user (user_name first last user_email : string) (role : list Role)
    (pw : string) :
  keeps_users (add_user user_name first last user_email role pw).
Proof.
  intros w. unfold add_user. simpl. repeat case_match; simpl; try apply kept_refl.
  eexists (users w), [_]. split; [done|].
  apply Forall_Forall2_diag, Forall_true, same_identity_refl.
Qed.

Lemma keeps_users_getitem (user : json) (key : string) : keeps_users (getitem user key).
Proof. intros w. unfold getitem. repeat case_match; apply kept_refl. Qed.

Lemma keeps_users_iter (value : json) : keeps_users (iter value).
Proof. intros w. unfold iter. case_match; apply kept_refl. Qed.

Lemma keeps_users_str (value : json) : keeps_users (str value).
Proof. intros w. unfold str. case_match; apply kept_refl. Qed.

Lemma keeps_users_with_appbuilder {A} (body : M A) :
  keeps_users body → keeps_users (with_appbuilder body).
Proof.
  intros Hbody w. unfold with_appbuilder, bind, called. simpl.
  specialize (Hbody (with_calls (calls w ++ [Enter]) w)).
  by destruct (body _) as [[] ?].
Qed.

Lemma keeps_users_assignments (rs : list Role) (s : string) (u : User) :
  same_identity u (set_roles rs u) ∧ same_identity u (set_first_name s u)
  ∧ same_identity u (set_last_name s u).
Proof. by repeat split. Qed.

Create HintDb kept discriminated.

#[local] Hint Resolve keeps_users_ret keeps_users_raise keeps_users_print keeps_users_called
  keeps_users_getattr keeps_users_find_role keeps_users_get_all_roles
  keeps_users_find_user keeps_users_add_user keeps_users_getitem keeps_users_iter
  keeps_users_str : kept.

Ltac keeps_users_step :=
  first [ apply keeps_users_bind; [|intros ?]
        | apply keeps_users_with_appbuilder
        | apply keeps_users_setattr; intros ?; apply keeps_users_assignments
        | progress auto with kept ].

Lemma keeps_users_update_user (user : nat) : keeps_users (update_user user).
Proof. unfold update_user. repeat keeps_users_step. Qed.

Lemma keeps_users_resolve_roles (rolenames : list json) (rs : list Role) :
  keeps_users (resolve_roles rolenames rs).
Proof.
  revert rs. induction rolenames as [|rolename rest IH]; intros rs; simpl.
  - auto with kept.
  - repeat keeps_users_step. case_match; [apply IH|]. repeat keeps_users_step.
Qed.

Lemma keeps_users_import_user (user : json) (lists : list string * list string) :
  keeps_users (import_user user lists).
Proof.
  pose proof keeps_users_update_user. pose proof keeps_users_resolve_roles.
  destruct lists as [users_created users_updated]. unfold import_user.
  repeat keeps_users_step. case_match; repeat keeps_users_step.
  case_match; repeat keeps_users_step.
Qed.

Lemma keeps_users_import_loop (users_list : list json) (lists : list string * list string) :
  keeps_users (import_loop users_list lists).
Proof.
  revert lists. induction users_list as [|user rest IH]; intros lists; simpl.
  - auto with kept.
  - apply keeps_users_bind; [apply keeps_users_import_user|done].
Qed.

(** X13. An import removes no user and moves none, and changes neither the id
    nor the username nor the email nor the password of a user, whatever
    the batch, the store and the outcome: a user of before is at its place
    after, with the same four. *)
Lemma import_keeps_users (users_list : list json) (w : World) (i : nat) (u : User) :
  users w !! i = Some u →
  ∃ u', users (_import_users users_list w).2 !! i = Some u'
        ∧ id u' = id u ∧ username u' = username u ∧ email u' = email u
        ∧ password u' = password u.
Proof.
  intros Hi.
  assert (keeps_users (_import_users users_list)) as Hkeeps.
  { unfold _import_users. apply keeps_users_with_appbuilder.
    case_match; [apply keeps_users_import_loop|apply keeps_users_raise]. }
  destruct (kept_lookup _ _ _ _ (Hkeeps w) Hi) as (u' & Hu' & Hsame).
  by exists u'.
Qed.


(** ** What the import reports *)

(** The email of an item. *)
Definition email_of (user : json) : option string :=
  match field user "email" with
  | Some (JStr e) => Some e
  | _ => None
  end.

(** The body of the loop, when it returns, has appended the email of the
    record to one of the two lists. *)
Lemma import_user_reports (user : json) (users_created users_updated : list string)
    (w : World) (lists' : list string * list string) (w' : World) :
  load_item user = [] →
  import_user user (users_created, users_updated) w = (Return lists', w') →
  ∃ e, email_of user = Some e
       ∧ (lists' = (users_created ++ [e], users_updated)
          ∨ lists' = (users_created, users_updated ++ [e])).
Proof.
  intros (f & l & un & e & rolenames & Hf & Hl & Hu & He & Hr & _ & _)%loaded_fields Hrun.
  exists e. split; [unfold email_of; by rewrite He|].
  destruct (resolve_or_unknown rolenames (all_roles w)) as [[found Hall]|Hex].
  - destruct (user_found "" e (users w)) as [existing_user|] eqn:Hfound.
    + destruct (user_found_Some _ _ _ _ Hfound) as [u Hexisting].
      destruct (decide (username u = un)) as [Hsame|Hdiffer].
      * erewrite import_user_update in Hrun by done. right. congruence.
      * erewrite import_user_conflict in Hrun by done. congruence.
    + pose proof (import_user_absent user f l un e rolenames Hf Hl Hu He Hr
                    users_created users_updated w found Hall Hfound) as Habsent.
      rewrite Hrun in Habsent. left. simpl in Habsent. congruence.
  - destruct (import_user_unknown_role user rolenames Hr (users_created, users_updated) w Hex)
      as (good & bad & _ & _ & Hstop). congruence.
Qed.

Lemma import_loop_reports (users_list : list json) (users_created users_updated : list string)
    (w : World) (created updated : list string) (w' : World) :
  Forall (fun user => load_item user = []) users_list →
  import_loop users_list (users_created, users_updated) w = (Return (created, updated), w') →
  created ++ updated ≡ₚ users_created ++ users_updated ++ omap email_of users_list
  ∧ length (omap email_of users_list) = length users_list.
Proof.
  intros Hall. revert users_created users_updated w.
  induction Hall as [|user rest Huser _ IH]; intros users_created users_updated w Hrun.
  - simpl in Hrun. injection Hrun as <- <- _. simpl. by rewrite app_nil_r.
  - rewrite import_loop_cons in Hrun.
    destruct (import_user user (users_created, users_updated) w) as [[lists'|e] w1] eqn:Hone;
      [|done].
    destruct (import_user_reports _ _ _ _ _ _ Huser Hone) as (e & He & [->| ->]).
    + destruct (IH _ _ _ Hrun) as [Hperm Hlen].
      assert (omap email_of (user :: rest) = e :: omap email_of rest) as ->
        by (simpl; by rewrite He).
      split; [|simpl; by f_equal]. rewrite Hperm.
      rewrite <- !app_assoc. apply Permutation_app_head. simpl.
      by rewrite Permutation_middle.
    + destruct (IH _ _ _ Hrun) as [Hperm Hlen].
      assert (omap email_of (user :: rest) = e :: omap email_of rest) as ->
        by (simpl; by rewrite He).
      split; [|simpl; by f_equal]. rewrite Hperm.
      by rewrite <- !app_assoc.
Qed.

(** X14. An import that returns has reported every record of the batch once:
    the emails under the created and the updated are, together, the emails
    of the batch, as many as the batch has records. *)
Lemma import_reports_every_record (users_list : list json) (w : World)
    (created updated : list string) (w' : World) :
  _import_users users_list w = (Return (created, updated), w') →
  created ++ updated ≡ₚ omap email_of users_list
  ∧ (length created + length updated = length users_list)%nat.
Proof.
  intros Hrun.
  destruct (load users_list) as [|row rows] eqn:Hload.
  - rewrite _import_users_loaded in Hrun by done.
    destruct (import_loop users_list ([], []) (with_calls (calls w ++ [Enter]) w))
      as [[[created' updated']|e] w1] eqn:Hloop; [|done].
    injection Hrun as -> -> _.
    destruct (import_loop_reports _ _ _ _ _ _ _ (proj1 (load_nil _) Hload) Hloop)
      as [Hperm Hlen].
    simpl in Hperm. split; [done|].
    by rewrite <- length_app, Hperm, Hlen.
  - unfold _import_users, with_appbuilder, bind, called, raise in Hrun. simpl in Hrun.
    by rewrite Hload in Hrun.
Qed.


(** ** What the schema rejects *)

(** A field of the schema that fails on an object is among the failures
    of the object. *)
Lemma field_failure_elem (d : gmap string json) (n : nat)
    (declared : string * (option json → option field_error)) (fail : string * field_error) :
  UserSchema !! n = Some declared → field_failure d declared = Some fail →
  fail ∈ load_item (JDict d).
Proof.
  intros Hdeclared Hfail. rewrite load_item_dict. apply elem_of_app. left.
  apply list_elem_of_omap. exists declared. split; [|done].
  by eapply list_elem_of_lookup_2.
Qed.

(** X17. An object without one of the five required keys fails under that key;
    an object with a key the schema does not declare fails under that key;
    an object whose roles are the empty list fails under the roles; and
    something that is not an object fails as a whole. *)
Lemma schema_rejects (d : gmap string json) (key : string) :
  (key ∈ ["firstname"; "lastname"; "username"; "email"; "roles"] → d !! key = None →
   (key, Messages ["Missing data for required field."]) ∈ load_item (JDict d))
  ∧ (key ∉ ["id"; "firstname"; "lastname"; "username"; "email"; "roles"] →
     is_Some (d !! key) →
     (key, Messages ["Unknown field."]) ∈ load_item (JDict d))
  ∧ (d !! "roles" = Some (JList []) →
     ("roles", Messages ["Shorter than minimum length 1."]) ∈ load_item (JDict d))
  ∧ (∀ data, (∀ d', data ≠ JDict d') →
             load_item data = [("_schema", Messages ["Invalid input type."])]).
Proof.
  split_and!.
  - intros Hkey Hnone.
    repeat (apply elem_of_cons in Hkey as [->|Hkey]);
      [| | | | |by apply elem_of_nil in Hkey].
    + apply (field_failure_elem d 1 ("firstname", deserialize true fields_Str)); [done|].
      unfold field_failure. simpl. by rewrite Hnone.
    + apply (field_failure_elem d 2 ("lastname", deserialize true fields_Str)); [done|].
      unfold field_failure. simpl. by rewrite Hnone.
    + apply (field_failure_elem d 3 ("username", deserialize true fields_Str)); [done|].
      unfold field_failure. simpl. by rewrite Hnone.
    + apply (field_failure_elem d 4 ("email", deserialize true fields_Email)); [done|].
      unfold field_failure. simpl. by rewrite Hnone.
    + apply (field_failure_elem d 5 ("roles", deserialize true fields_List)); [done|].
      unfold field_failure. simpl. by rewrite Hnone.
  - intros Hnot Hsome. rewrite load_item_dict. apply elem_of_app. right.
    apply list_elem_of_fmap. exists key. split; [done|].
    by apply unknown_keys_elem.
  - intros Hroles.
    apply (field_failure_elem d 5 ("roles", deserialize true fields_List)); [done|].
    unfold field_failure. simpl. by rewrite Hroles.
  - intros data Hnot. destruct data as [| | | | | |d']; try done. by destruct (Hnot d').
Qed.

(** X11. The list exported for some users passes the schema of the import
    exactly when each of them has an email the validator takes and at
    least one role: a user with no role, or with an email that is not an
    address, makes the whole export fail at the gate of the import. *)
Lemma export_loads (us : list User) :
  load (export_user <$> us) = []
  ↔ Forall (fun u => valid_email (email u) = true ∧ roles u ≠ []) us.
Proof.
  rewrite load_nil, Forall_fmap. apply Forall_iff. intros u. simpl.
  apply export_user_loads.
Qed.

(** ** What the commands do not touch *)

(** The body of the loop, for a record that loads, leaves alone every user
    whose email is not the email of the record. *)
Lemma import_user_untouched (user : json) (lists : list string * list string) (w : World)
    (e : string) (i : nat) (u : User) :
  load_item user = [] → email_of user = Some e →
  users w !! i = Some u → email u ≠ e →
  users (import_user user lists w).2 !! i = Some u.
Proof.
  intros (f & l & un & e' & rolenames & Hf & Hl & Hu & He & Hr & _ & _)%loaded_fields
         Hemail Hi Hother.
  unfold email_of in Hemail. rewrite He in Hemail. injection Hemail as ->.
  destruct lists as [users_created users_updated].
  destruct (resolve_or_unknown rolenames (all_roles w)) as [[found Hall]|Hex].
  - destruct (user_found "" e (users w)) as [existing_user|] eqn:Hfound.
    + destruct (user_found_email _ _ _ Hfound) as (u0 & Hexisting & Hsame_email).
      assert (existing_user ≠ i) as Hne by (intros ->; congruence).
      destruct (decide (username u0 = un)) as [Hsame|Hdiffer].
      * erewrite import_user_update by done. simpl.
        by rewrite list_lookup_insert_ne.
      * by erewrite import_user_conflict.
    + unfold import_user.
      unfold bind at 1. unfold bind at 1. erewrite getitem_field by done. simpl.
      unfold bind at 1. erewrite resolve_roles_all by done. simpl.
      unfold bind at 1. unfold bind at 1. erewrite getitem_field by done. simpl.
      unfold bind at 1. unfold find_user at 1. simpl. rewrite Hfound.
      unfold bind at 1. simpl.
      unfold bind at 1. unfold bind at 1. erewrite getitem_field by done. simpl.
      unfold bind at 1. unfold bind at 1. erewrite getitem_field by done. simpl.
      unfold bind at 1. unfold bind at 1. erewrite getitem_field by done. simpl.
      unfold bind at 1. unfold add_user, ret. simpl.
      repeat case_match; simplify_eq/=; try done.
      by apply lookup_app_l_Some.
  - destruct (import_user_unknown_role user rolenames Hr (users_created, users_updated) w Hex)
      as (good & bad & _ & _ & ->). done.
Qed.

Lemma import_loop_untouched (users_list : list json) (lists : list string * list string)
    (w : World) (i : nat) (u : User) :
  Forall (fun user => load_item user = []) users_list →
  email u ∉ omap email_of users_list →
  users w !! i = Some u →
  users (import_loop users_list lists w).2 !! i = Some u.
Proof.
  intros Hall. revert lists w.
  induction Hall as [|user rest Huser _ IH]; intros lists w Hother Hi; [done|].
  destruct (loaded_fields user Huser)
    as (f & l & un & e & rolenames & _ & _ & _ & He & _).
  assert (email_of user = Some e) as Hemail by (unfold email_of; by rewrite He).
  simpl in Hother. rewrite Hemail in Hother. simpl in Hother.
  apply not_elem_of_cons in Hother as [Hne Hrest].
  rewrite import_loop_cons.
  pose proof (import_user_untouched user lists w e i u Huser Hemail Hi Hne) as Hstep.
  destruct (import_user user lists w) as [[lists'|exc] w1]; [|done].
  by apply IH.
Qed.

(** X18. An import leaves alone every user whose email is not the email of a
    record of the batch: whatever the batch, the store and the outcome,
    such a user is after the import what it was before, roles and names
    included. *)
Lemma import_touches_only_named (users_list : list json) (w : World) (i : nat) (u : User) :
  users w !! i = Some u →
  email u ∉ omap email_of users_list →
  users (_import_users users_list w).2 !! i = Some u.
Proof.
  intros Hi Hother.
  destruct (load users_list) as [|row rows] eqn:Hload.
  - rewrite _import_users_loaded by done.
    pose proof (import_loop_untouched users_list ([], [])
                  (with_calls (calls w ++ [Enter]) w) i u
                  (proj1 (load_nil _) Hload) Hother Hi) as Hloop.
    by destruct (import_loop _ _ _) as [[] ?].
  - unfold _import_users, with_appbuilder, bind, called, raise. simpl. by rewrite Hload.
Qed.


(** X20. A deletion that fails leaves a store that cannot be exported and
    imported again: the user that was to be deleted is left without roles,
    and the row exported for it fails the schema of the import under the
    roles, for being shorter than the minimum length. *)
Lemma failed_delete_breaks_export (args : Namespace) (w : World) (user : nat) (u : User) :
  xorb (truthy (arg_username args)) (truthy (arg_email args)) = true →
  user_found (arg_username args) (arg_email args) (users w) = Some user →
  users w !! user = Some u →
  store_refuses (DelRegisterUser (set_roles [] u)) (<[user := set_roles [] u]> (users w))
  = true →
  ∃ w' fail,
    users_delete args w = (Raise (SystemExit FailedToDeleteUser), w')
    ∧ (user, fail) ∈ load (export_user <$> users w')
    ∧ ("roles", Messages ["Shorter than minimum length 1."]) ∈ fail.
Proof.
  intros Hone Hfound Hu Hrefuses.
  assert (user < length (users w))%nat as Hlt by (by eapply lookup_lt_Some).
  rewrite (users_delete_run args w user u) by done. rewrite Hrefuses.
  assert (("roles", Messages ["Shorter than minimum length 1."])
          ∈ load_item (export_user (set_roles [] u))) as Hroles.
  { unfold export_user.
    by apply (field_failure_elem _ 5 ("roles", deserialize true fields_List)). }
  remember (load_item (export_user (set_roles [] u))) as fail eqn:Hfail.
  eexists _, fail. split; [reflexivity|]. split; [|done].
  apply load_elem. exists (export_user (set_roles [] u)). split_and!; [|done|].
  - cbn [users]. by rewrite list_lookup_fmap, list_lookup_insert_eq.
  - intros Hnil. rewrite Hnil in Hroles. by apply elem_of_nil in Hroles.
Qed.

(** ** The application builder is entered and left around every call *)

(** A call on the security manager, as opposed to the entry and the exit
    of the application builder. *)
Definition store_call (c : call) : Prop := c ≠ Enter ∧ c ≠ Exit.

(** A list of calls made of blocks, one after the other: an entry, calls
    on the security manager, an exit. No call is outside a block, no block
    is inside another, and the last block is closed. *)
Inductive blocks : list call → Prop :=
| blocks_nil : blocks []
| blocks_cons (inner rest : list call) :
    Forall store_call inner → blocks rest → blocks (Enter :: inner ++ Exit :: rest).

(** What a command adds to the calls made so far. *)
Definition makes {A} (P : list call → Prop) (m : M A) : Prop :=
  ∀ w, ∃ cs, calls (m w).2 = calls w ++ cs ∧ P cs.

(** A command that makes calls on the security manager only, as the body
    of a [with] does, and one that makes whole blocks. *)
Definition flat {A} (m : M A) : Prop := makes (Forall store_call) m.
Definition scoped {A} (m : M A) : Prop := makes blocks m.

(** A command that makes no call at all. *)
Definition quiet {A} (m : M A) : Prop := ∀ w, calls (m w).2 = calls w.

Lemma blocks_app (a b : list call) : blocks a → blocks b → blocks (a ++ b).
Proof.
  induction 1 as [|inner rest Hinner _ IH]; intros Hb; [done|].
  specialize (IH Hb). simpl. rewrite <- app_assoc. simpl. by constructor.
Qed.

Lemma quiet_flat {A} (m : M A) : quiet m → flat m.
Proof. intros Hm w. exists []. by rewrite app_nil_r. Qed.

Lemma quiet_scoped {A} (m : M A) : quiet m → scoped m.
Proof. intros Hm w. exists []. rewrite app_nil_r. split; [done|constructor]. Qed.

Lemma makes_bind {A B} (P : list call → Prop) (m : M A) (k : A → M B) :
  (∀ a b, P a → P b → P (a ++ b)) →
  makes P m → (∀ a, makes P (k a)) → makes P (bind m k).
Proof.
  intros Happ Hm Hk w. unfold bind. destruct (Hm w) as (cs & Hcs & HP).
  destruct (m w) as [[a|e] w']; simpl in *; [|by exists cs].
  destruct (Hk a w') as (cs' & Hcs' & HP').
  exists (cs ++ cs'). split; [|by apply Happ].
  by rewrite Hcs', Hcs, app_assoc.
Qed.

Lemma flat_bind {A B} (m : M A) (k : A → M B) :
  flat m → (∀ a, flat (k a)) → flat (bind m k).
Proof. apply makes_bind. intros a b. apply Forall_app_2. Qed.

Lemma scoped_bind {A B} (m : M A) (k : A → M B) :
  scoped m → (∀ a, scoped (k a)) → scoped (bind m k).
Proof. apply makes_bind, blocks_app. Qed.

Lemma scoped_with_appbuilder {A} (body : M A) : flat body → scoped (with_appbuilder body).
Proof.
  intros Hbody w. unfold with_appbuilder, bind, called. simpl.
  destruct (Hbody (with_calls (calls w ++ [Enter]) w)) as (cs & Hcs & Hflat).
  destruct (body _) as [r w']. simpl in *.
  exists (Enter :: cs ++ Exit :: []). split; [|by repeat constructor].
  rewrite Hcs, <- !app_assoc. done.
Qed.

Lemma flat_one {A} (m : M A) (c : call) :
  store_call c → (∀ w, calls (m w).2 = calls w ++ [c]) → flat m.
Proof. intros Hc Hm w. exists [c]. split; [done|by constructor]. Qed.

Lemma quiet_ret {A} (a : A) : quiet (ret a).
Proof. done. Qed.

Lemma quiet_raise {A} (e : exn) : quiet (@raise A e).
Proof. done. Qed.

Lemma quiet_print (l : line) : quiet (print l).
Proof. done. Qed.

Lemma quiet_getattr {A} (user : nat) (attr : User → A) : quiet (getattr user attr).
Proof. intros w. unfold getattr. by case_match. Qed.

Lemma quiet_setattr (user : nat) (assign : User → User) : quiet (setattr user assign).
Proof. intros w. unfold setattr. by case_match. Qed.

Lemma quiet_getitem (user : json) (key : string) : quiet (getitem user key).
Proof. intros w. unfold getitem. by repeat case_match. Qed.

Lemma quiet_iter (value : json) : quiet (iter value).
Proof. intros w. unfold iter. by case_match. Qed.

Lemma quiet_str (value : json) : quiet (str value).
Proof. intros w. unfold str. by case_match. Qed.

Lemma quiet__create_password (args : Namespace) : quiet (_create_password args).
Proof.
  intros w. pose proof (_create_password_frame args w) as Hframe.
  destruct (_create_password args w) as [o w']. by destruct Hframe as (_ & _ & ? & _).
Qed.

Lemma flat_find_role (role : string) : flat (find_role role).
Proof. by apply (flat_one _ (FindRole role)). Qed.

Lemma flat_get_all_roles : flat get_all_roles.
Proof. by apply (flat_one _ GetAllRoles). Qed.

Lemma flat_get_all_users : flat get_all_users.
Proof. by apply (flat_one _ GetAllUsers). Qed.

Lemma flat_find_user (user_name user_email : string) : flat (find_user user_name user_email).
Proof. by apply (flat_one _ (FindUser user_name user_email)). Qed.

Lemma flat_add_user (user_name first last user_email : string) (role : list Role)
    (pw : string) :
  flat (add_user user_name first last user_email role pw).
Proof.
  apply (flat_one _ (AddUser user_name first last user_email role pw)); [done|].
  intros w. unfold add_user. simpl. by repeat case_match.
Qed.

Lemma flat_update_user (user : nat) : flat (update_user user).
Proof.
  intros w. unfold update_user, bind, getattr, called.
  destruct (users w !! user) as [u|]; simpl.
  - exists [UpdateUser u]. split; [done|by constructor].
  - exists []. by rewrite app_nil_r.
Qed.

Lemma flat_del_register_user (user : nat) : flat (del_register_user user).
Proof.
  intros w. unfold del_register_user, bind, getattr, called.
  destruct (users w !! user) as [u|]; simpl.
  - exists [DelRegisterUser u]. split; [by case_match|by constructor].
  - exists []. by rewrite app_nil_r.
Qed.

Lemma flat_reset_password (userid : Z) (pw : string) : flat (reset_password userid pw).
Proof.
  apply (flat_one _ (ResetPassword userid pw)); [done|].
  intros w. unfold reset_password, bind, called. simpl. by repeat case_match.
Qed.

Create HintDb flat discriminated.
Create HintDb scoped discriminated.

#[local] Hint Resolve quiet_ret quiet_raise quiet_print quiet_getattr quiet_setattr
  quiet_getitem quiet_iter quiet_str quiet__create_password : flat scoped.
#[local] Hint Resolve flat_find_role flat_get_all_roles flat_get_all_users flat_find_user
  flat_add_user flat_update_user flat_del_register_user flat_reset_password : flat.

Ltac flat_step :=
  first [ progress auto with flat
        | apply quiet_flat; progress auto with flat
        | apply flat_bind; [|intros ?]
        | case_match ].

Ltac scoped_step :=
  first [ progress auto with scoped
        | apply quiet_scoped; progress auto with scoped
        | apply scoped_with_appbuilder; repeat flat_step
        | apply scoped_bind; [|intros ?]
        | case_match ].

Lemma flat_resolve_roles (rolenames : list json) (rs : list Role) :
  flat (resolve_roles rolenames rs).
Proof.
  revert rs. induction rolenames as [|rolename rest IH]; intros rs; simpl.
  - repeat flat_step.
  - apply flat_bind; [repeat flat_step|intros ?].
    apply flat_bind; [repeat flat_step|intros [role|]]; [apply IH|repeat flat_step].
Qed.

Lemma flat_import_user (user : json) (lists : list string * list string) :
  flat (import_user user lists).
Proof.
  pose proof flat_resolve_roles.
  destruct lists as [users_created users_updated]. unfold import_user.
  repeat flat_step.
Qed.

Lemma flat_import_loop (users_list : list json) (lists : list string * list string) :
  flat (import_loop users_list lists).
Proof.
  revert lists. induction users_list as [|user rest IH]; intros lists; simpl.
  - repeat flat_step.
  - apply flat_bind; [apply flat_import_user|done].
Qed.

Lemma scoped__find_user (args : Namespace) : scoped (_find_user args).
Proof. unfold _find_user. repeat scoped_step. Qed.

(** X21. Every command enters the application builder before it calls the
    security manager and leaves it on every way out, by a return or by an
    exception: the calls a command adds are whole blocks (an entry, calls
    on the security manager, an exit), one after the other, whatever the
    arguments, the store and the console. *)
Lemma commands_scoped (args : Namespace) (remove : bool) (users_list : list json) :
  scoped (users_create args)
  ∧ scoped (user_reset_password args)
  ∧ scoped (users_delete args)
  ∧ scoped (users_manage_role args remove)
  ∧ scoped users_export
  ∧ scoped (_import_users users_list).
Proof.
  pose proof (scoped__find_user args) as Hfind.
  pose proof flat_import_loop as Hloop.
  split_and!.
  - unfold users_create. repeat scoped_step.
  - unfold user_reset_password. repeat scoped_step.
  - unfold users_delete. repeat scoped_step.
  - unfold users_manage_role. repeat scoped_step.
  - unfold users_export. repeat scoped_step.
  - unfold _import_users. repeat scoped_step.
Qed.

End Commands.

(** ** The commands on a small store *)

(** A validator that takes the three addresses used below, which are
    well-formed addresses, and no other string. *)
Definition three_addresses (s : string) : bool :=
  String.eqb s "a@x.com" || String.eqb s "b@x.com" || String.eqb s "c@x.com".

(** No string is read as an integer: the items below carry no id. *)
Definition no_literal (s : string) : bool := false.

(** A store that carries out every request, and one that turns every
    request down. *)
Definition obliging (c : call) (us : list User) : bool := false.
Definition unwilling (c : call) (us : list User) : bool := true.

(** An item of a batch, with its five fields. *)
Definition item (firstname lastname user_username user_email : string)
    (rolenames : list string) : json :=
  JDict (<["firstname" := JStr firstname]>
        (<["lastname" := JStr lastname]>
        (<["username" := JStr user_username]>
        (<["email" := JStr user_email]>
        (<["roles" := JList (JStr <$> rolenames)]> ∅))))).

Definition Admin : Role := mkRole "Admin".
Definition Viewer : Role := mkRole "Viewer".

(** The user [alee], a viewer. *)
Definition alee : User := mkUser 1 "alee" "a@x.com" "Ann" "Lee" [Viewer] "".

(** A store with the roles Admin and Viewer and the one user [alee]; nothing
    has been called or printed, and two different answers wait at the
    console. *)
Definition small_store : World :=
  mkWorld [alee] [Admin; Viewer] [] [] ["one"; "two"] "0123456789abcdef".

(** The arguments of a command, with no password given. *)
Definition arguments (user_name user_email role : string) : Namespace :=
  mkArgs user_name user_email "Ann" "Lee" role false "".






(** The email of [alee] comes with another username. *)
Lemma import_refuses_username_change_witness :
  ∃ w'',
    _import_users three_addresses no_literal
                  [item "Ann" "Lee" "aleesmith" "a@x.com" ["Admin"]] small_store
    = (Raise (SystemExit (UsernameChangeNotAllowed "a@x.com")), w'')
    ∧ users w'' = [alee].
Proof.
  destruct (import_refuses_username_change three_addresses no_literal
              (item "Ann" "Lee" "aleesmith" "a@x.com" ["Admin"])
              "aleesmith" "a@x.com" ["Admin"] [Admin] ([], []) small_store 0 alee)
    as (w' & w'' & reads & _ & _ & _ & _ & _ & Hrun & Husers).
  - by vm_compute.
  - reflexivity.
  - reflexivity.
  - reflexivity.
  - repeat constructor.
  - reflexivity.
  - reflexivity.
  - by vm_compute.
  - exists w''. split; [exact Hrun|exact Husers].
Defined.

(** The email of [alee] comes with another username and with a role that
    does not exist: the claim as stated would have the import fail over the
    username; it fails over the role, which is looked up first. *)
Lemma import_username_change_unknown_role :
  let user := item "Ann" "Lee" "aleesmith" "a@x.com" ["Ghost"] in
  user_found "" "a@x.com" (users small_store) = Some 0%nat
  ∧ username alee ≠ "aleesmith"
  ∧ ∃ w'',
      _import_users three_addresses no_literal [user] small_store
      = (Raise (SystemExit (NotAValidRole "Ghost" [Admin; Viewer])), w'').
Proof.
  split_and!; [by vm_compute..|].
  eexists. vm_compute. reflexivity.
Qed.

(** The world once [bray] has been imported into the small store, the
    application builder entered. *)
Definition with_bray : World :=
  mkWorld [alee; mkUser 2 "bray" "b@x.com" "Bob" "Ray" [Admin] ""] [Admin; Viewer]
          [Enter; FindRole "Admin"; FindUser "" "b@x.com";
           AddUser "bray" "Bob" "Ray" "b@x.com" [Admin] ""]
          [CreatingNewUser "b@x.com"] ["one"; "two"] "0123456789abcdef".

(** [bray] is imported, then a record with a role that does not exist. *)
Lemma import_stops_at_unknown_role_witness :
  ∃ w',
    _import_users three_addresses no_literal
                  [item "Bob" "Ray" "bray" "b@x.com" ["Admin"];
                   item "Cy" "Poe" "cpoe" "c@x.com" ["Viewer"; "Ghost"];
                   item "Ann" "Lee" "alee" "a@x.com" ["Admin"]]
                  small_store
    = (Raise (SystemExit (NotAValidRole "Ghost" [Admin; Viewer])), w')
    ∧ users w' = [alee; mkUser 2 "bray" "b@x.com" "Bob" "Ray" [Admin] ""].
Proof.
  destruct (import_stops_at_unknown_role three_addresses no_literal
              [item "Bob" "Ray" "bray" "b@x.com" ["Admin"]]
              (item "Cy" "Poe" "cpoe" "c@x.com" ["Viewer"; "Ghost"])
              [item "Ann" "Lee" "alee" "a@x.com" ["Admin"]]
              ["Viewer"; "Ghost"] (["b@x.com"], []) small_store with_bray)
    as (bad & w' & reads & Hin & Hbad & Hrun & Husers & _).
  - by vm_compute.
  - by vm_compute.
  - reflexivity.
  - apply Exists_cons. right. apply Exists_cons. left. reflexivity.
  - exists w'. split; [|exact Husers].
    cbn [app] in Hrun. rewrite Hrun. clear Hrun Husers. f_equal. f_equal. f_equal. f_equal.
    apply elem_of_cons in Hin as [->|Hin]; [discriminate Hbad|].
    apply elem_of_cons in Hin as [->|Hin]; [reflexivity|].
    apply elem_of_nil in Hin. destruct Hin.
Defined.

(** The first record changes the username of [alee], the second has a role
    that does not exist: the claim as stated would have the import fail
    over the role of record 2; it fails over record 1. *)
Lemma import_fails_before_unknown_role :
  let batch := [item "Ann" "Lee" "aleesmith" "a@x.com" ["Admin"];
                item "Bob" "Ray" "bray" "b@x.com" ["Ghost"]] in
  load three_addresses no_literal batch = []
  ∧ role_named "Ghost" (all_roles small_store) = None
  ∧ ∃ w',
      _import_users three_addresses no_literal batch small_store
      = (Raise (SystemExit (UsernameChangeNotAllowed "a@x.com")), w').
Proof.
  split_and!; [by vm_compute..|].
  eexists. vm_compute. reflexivity.
Qed.

(** An item whose firstname is the empty string: the claim as stated would
    have it rejected; it loads. *)
Lemma schema_accepts_empty_firstname :
  let user := item "" "Lee" "alee" "a@x.com" ["Viewer"] in
  field user "firstname" = Some (JStr "")
  ∧ load_item three_addresses no_literal user = [].
Proof. split; by vm_compute. Qed.

(** [alee], a viewer, is added to Admin and taken out of Viewer; adding to
    Viewer and taking out of Admin fail. *)
Lemma manage_role_membership_witness :
  (add_role (arguments "alee" "" "Admin") small_store).1 = Return tt
  ∧ users (add_role (arguments "alee" "" "Admin") small_store).2
    = [mkUser 1 "alee" "a@x.com" "Ann" "Lee" [Viewer; Admin] ""]
  ∧ (remove_role (arguments "alee" "" "Admin") small_store).1
    = Raise (SystemExit (NotAMember "alee" "Admin"))
  ∧ users (remove_role (arguments "alee" "" "Admin") small_store).2 = [alee].
Proof.
  destruct (manage_role_membership (arguments "alee" "" "Admin") small_store 0 alee Admin)
    as (Hadd & Hremove & _).
  - reflexivity.
  - reflexivity.
  - reflexivity.
  - reflexivity.
  - rewrite Hadd, Hremove. by vm_compute.
Defined.

(** The store fails to delete [alee]: [alee] is still there, with no role. *)
Lemma delete_clears_roles_first_witness :
  users_delete unwilling (arguments "" "a@x.com" "") small_store
  = (Raise (SystemExit FailedToDeleteUser),
     mkWorld [mkUser 1 "alee" "a@x.com" "Ann" "Lee" [] ""] [Admin; Viewer]
             [Enter; FindUser "" "a@x.com"; Exit; Enter;
              DelRegisterUser (mkUser 1 "alee" "a@x.com" "Ann" "Lee" [] ""); Exit]
             [] ["one"; "two"] "0123456789abcdef").
Proof.
  destruct (delete_clears_roles_first unwilling (arguments "" "a@x.com" "") small_store 0 alee)
    as (Hrun & _).
  - reflexivity.
  - reflexivity.
  - reflexivity.
  - exact Hrun.
Defined.

(** [alee] is created again, with the password given on the command line:
    the command returns and the store has the one user it had. *)
Lemma create_existing_username_witness :
  let args := mkArgs "alee" "other@x.com" "Ann" "Lee" "Admin" false "secret" in
  (users_create args small_store).1 = Return tt
  ∧ users (users_create args small_store).2 = [alee]
  ∧ stdout (users_create args small_store).2 = [AlreadyExist "alee"].
Proof.
  intros args.
  rewrite (create_existing_username args small_store 0).
  - by vm_compute.
  - reflexivity.
Defined.

(** [alee] is created again with a role that exists and no password on the
    command line, and the two passwords typed differ: the claim as stated
    would have the command return; it fails. *)
Lemma create_existing_username_passwords_differ :
  let args := arguments "alee" "other@x.com" "Admin" in
  user_found (arg_username args) "" (users small_store) = Some 0%nat
  ∧ role_named (arg_role args) (all_roles small_store) = Some Admin
  ∧ tty small_store = ["one"; "two"]
  ∧ (users_create args small_store).1 = Raise (SystemExit PasswordsDidNotMatch).
Proof. split_and!; by vm_compute. Qed.

(** To delete a user named by nothing, and one named twice. *)
Lemma lookup_needs_exactly_one_key_witness :
  users_delete obliging (arguments "" "" "") small_store
  = (Raise (SystemExit MissingArgs), small_store)
  ∧ users_delete obliging (arguments "alee" "a@x.com" "") small_store
    = (Raise (SystemExit ConflictingArgs), small_store).
Proof.
  split.
  - apply (lookup_needs_exactly_one_key obliging (users_delete obliging)
             (arguments "" "" "") small_store);
      [left|by vm_compute..].
  - apply (lookup_needs_exactly_one_key obliging (users_delete obliging)
             (arguments "alee" "a@x.com" "") small_store);
      [left|by vm_compute..].
Defined.

(** ** More commands on the small store *)

(** The arguments of a command, with a password given. *)
Definition arguments_with_password (user_name user_email role pw : string) : Namespace :=
  mkArgs user_name user_email "Bob" "Ray" role false pw.

Lemma manage_unknown_role_witness :
  users_manage_role (arguments "alee" "" "Ghost") true small_store
  = (Raise (SystemExit (NotAValidRole "Ghost" [Admin; Viewer])),
     with_calls [Enter; FindUser "alee" ""; Exit; Enter; FindRole "Ghost"; GetAllRoles; Exit]
                small_store).
Proof.
  apply (manage_unknown_role (arguments "alee" "" "Ghost") true small_store 0);
    reflexivity.
Defined.

Lemma add_role_twice_witness :
  ∃ w1 w2,
    add_role (arguments "alee" "" "Admin") small_store = (Return tt, w1)
    ∧ add_role (arguments "alee" "" "Admin") w1
      = (Raise (SystemExit (AlreadyAMember "alee" "Admin")), w2)
    ∧ users w2 = users w1
    ∧ users w1 = [mkUser 1 "alee" "a@x.com" "Ann" "Lee" [Viewer; Admin] ""].
Proof.
  apply (add_role_twice (arguments "alee" "" "Admin") small_store 0 alee Admin);
    try reflexivity.
  intros Hin. apply list_elem_of_singleton in Hin. discriminate Hin.
Defined.

Lemma add_then_remove_role_witness :
  ∃ w1 w2,
    add_role (arguments "alee" "" "Admin") small_store = (Return tt, w1)
    ∧ remove_role (arguments "alee" "" "Admin") w1 = (Return tt, w2)
    ∧ users w2 = [alee].
Proof.
  apply (add_then_remove_role (arguments "alee" "" "Admin") small_store 0 alee Admin);
    try reflexivity.
  intros Hin. apply list_elem_of_singleton in Hin. discriminate Hin.
Defined.

Lemma remove_role_twice_witness :
  ∃ w1 w2,
    remove_role (arguments "" "a@x.com" "Viewer") small_store = (Return tt, w1)
    ∧ remove_role (arguments "" "a@x.com" "Viewer") w1
      = (Raise (SystemExit (NotAMember "alee" "Viewer")), w2)
    ∧ users w2 = users w1
    ∧ users w1 = [mkUser 1 "alee" "a@x.com" "Ann" "Lee" [] ""].
Proof.
  apply (remove_role_twice (arguments "" "a@x.com" "Viewer") small_store 0 alee Viewer);
    try reflexivity.
  apply list_elem_of_singleton. reflexivity.
Defined.

Lemma create_unknown_role_witness :
  users_create (arguments "bray" "b@x.com" "Ghost") small_store
  = (Raise (SystemExit (NotAValidRole "Ghost" [Admin; Viewer])),
     with_calls [Enter; FindRole "Ghost"; GetAllRoles; Exit] small_store).
Proof.
  apply (create_unknown_role (arguments "bray" "b@x.com" "Ghost") small_store).
  reflexivity.
Defined.

Lemma create_adds_user_witness :
  ∃ w'' new,
    users_create (arguments_with_password "bray" "b@x.com" "Admin" "secret") small_store
    = (Return tt, w'')
    ∧ users w'' = [alee; new]
    ∧ username new = "bray" ∧ email new = "b@x.com"
    ∧ first_name new = "Bob" ∧ last_name new = "Ray"
    ∧ roles new = [Admin] ∧ password new = "secret"
    ∧ stdout w'' = [UserCreated "bray" "Admin"].
Proof.
  apply (create_adds_user (arguments_with_password "bray" "b@x.com" "Admin" "secret")
           small_store small_store Admin "secret");
    reflexivity.
Defined.

(** The password of [alee] is reset to a random one. *)
Lemma reset_password_of_found_user_witness :
  user_reset_password obliging (mkArgs "alee" "" "" "" "" true "") small_store
  = (Return tt,
     mkWorld [mkUser 1 "alee" "a@x.com" "Ann" "Lee" [Viewer] "0123456789abcdef"]
             [Admin; Viewer]
             [Enter; FindUser "alee" ""; Exit;
              Enter; ResetPassword 1 "0123456789abcdef"; Exit]
             [PasswordReset "alee"] ["one"; "two"] "0123456789abcdef").
Proof.
  rewrite (reset_password_of_found_user obliging (mkArgs "alee" "" "" "" "" true "")
             small_store 0 alee).
  - reflexivity.
  - reflexivity.
  - reflexivity.
  - reflexivity.
  - apply NoDup_singleton.
Defined.

Lemma delete_then_lookup_witness :
  ∃ w1 w2,
    users_delete obliging (arguments "alee" "" "") small_store = (Return tt, w1)
    ∧ users w1 = []
    ∧ _find_user (arguments "alee" "" "") w1
      = (Raise (SystemExit (UserDoesNotExist "alee")), w2)
    ∧ users w2 = users w1.
Proof.
  apply (delete_then_lookup obliging (arguments "alee" "" "") small_store 0 alee);
    try reflexivity; apply NoDup_singleton.
Defined.

Lemma small_store_exportable : exportable three_addresses small_store.
Proof.
  split; [apply NoDup_singleton|].
  repeat constructor; try done.
Qed.

Lemma export_then_import_witness :
  ∃ users_list w1 w2,
    users_export small_store = (Return users_list, w1)
    ∧ length users_list = 1%nat
    ∧ _import_users three_addresses no_literal users_list w1
      = (Return ([], ["a@x.com"]), w2)
    ∧ users w2 = [alee].
Proof.
  apply (export_then_import three_addresses no_literal small_store).
  exact small_store_exportable.
Defined.

Lemma import_keeps_users_witness :
  ∃ u', users (_import_users three_addresses no_literal
                 [item "Nan" "Poe" "alee" "a@x.com" ["Admin"]] small_store).2 !! 0%nat
        = Some u'
        ∧ id u' = 1 ∧ username u' = "alee" ∧ email u' = "a@x.com" ∧ password u' = "".
Proof.
  apply (import_keeps_users three_addresses no_literal
           [item "Nan" "Poe" "alee" "a@x.com" ["Admin"]] small_store 0 alee).
  reflexivity.
Defined.


Lemma import_reports_every_record_witness :
  ["b@x.com"] ++ ["a@x.com"]
  ≡ₚ omap email_of [item "Ann" "Lee" "alee" "a@x.com" ["Admin"];
                    item "Bob" "Ray" "bray" "b@x.com" ["Viewer"]]
  ∧ (length ["b@x.com"] + length ["a@x.com"] = 2)%nat.
Proof.
  eapply (import_reports_every_record three_addresses no_literal
            [item "Ann" "Lee" "alee" "a@x.com" ["Admin"];
             item "Bob" "Ray" "bray" "b@x.com" ["Viewer"]] small_store).
  vm_compute. reflexivity.
Defined.


(** [bray] is imported into a store that has [alee]: [alee] is untouched. *)
Lemma import_touches_only_named_witness :
  users (_import_users three_addresses no_literal
           [item "Bob" "Ray" "bray" "b@x.com" ["Admin"]] small_store).2 !! 0%nat
  = Some alee.
Proof.
  apply (import_touches_only_named three_addresses no_literal
           [item "Bob" "Ray" "bray" "b@x.com" ["Admin"]] small_store 0 alee).
  - reflexivity.
  - intros Hin. apply list_elem_of_singleton in Hin. discriminate Hin.
Defined.


(** The store fails to delete [alee], and the export of what is left does
    not pass the schema. *)
Lemma failed_delete_breaks_export_witness :
  ∃ w' fail,
    users_delete unwilling (arguments "alee" "" "") small_store
    = (Raise (SystemExit FailedToDeleteUser), w')
    ∧ (0%nat, fail) ∈ load three_addresses no_literal (export_user <$> users w')
    ∧ ("roles", Messages ["Shorter than minimum length 1."]) ∈ fail.
Proof.
  apply (failed_delete_breaks_export three_addresses no_literal unwilling
           (arguments "alee" "" "") small_store 0 alee);
    reflexivity.
Defined.
